(** * Parallax: a poll-driven task scheduler on a millisecond counter

    Shallow embedding of [parallax.hpp].  The scheduler keeps a singly
    linked list of heap-allocated [ScheduledTask] nodes behind the global
    [head]; [execute] pushes a node stamped with [millis()], and [update]
    walks the list through a pointer-to-pointer ([indirect]), invoking the
    task of every node whose elapsed time is below its duration and
    unlinking and deleting the others.

    The embedding keeps the pointer structure: nodes live in a finite map
    from addresses to records, [nullptr] is [None], and [indirect] is a
    location that is either [&head] or [&a->next]. *)

From Stdlib Require Import ZArith Lia List.
From stdpp Require Import base option list gmap.

Local Open Scope Z_scope.

(** ** Machine integers, addresses *)

(** [unsigned long] is a [bits]-wide unsigned integer (32 on the Arduino
    cores); it is represented by a [Z] in [0, 2^bits). *)
Definition ULONG_RANGE (bits : N) : Z := 2 ^ Z.of_N bits.

(** Reduction into the range of [unsigned long]. *)
Definition wrap (bits : N) (z : Z) : Z := z mod ULONG_RANGE bits.

(** [a - b] on [unsigned long]: the result wraps around. *)
Definition sub_ul (bits : N) (a b : Z) : Z := wrap bits (a - b).

(** Addresses of [ScheduledTask] nodes, and of the caller's [Task] objects. *)
Abbreviation addr := positive (only parsing).
Abbreviation task_ptr := nat (only parsing).

(** ** Data model *)

(** [struct ScheduledTask]. *)
Record ScheduledTask := mkScheduledTask {
  task : task_ptr;            (* Task* task *)
  startTime : Z;              (* unsigned long startTime *)
  duration : Z;               (* unsigned long duration *)
  next : option addr          (* ScheduledTask *next *)
}.

(** Which function performed a [millis()] read. *)
Inductive reader := ByExecute | ByUpdate.

(** Observable steps, recorded in program order. *)
Inductive event :=
| EvMillis (who : reader) (v : Z)   (* millis() returned v *)
| EvNew (a : addr)                  (* new ScheduledTask returned a *)
| EvTest (a : addr) (now : Z)       (* line 103: node a is tested against currentTime = now *)
| EvCall (a : addr) (t : task_ptr)  (* line 105: the task of node a is invoked *)
| EvDelete (a : addr).              (* line 112: delete current *)

(** The program state: the millisecond clock (unbounded, [millis()] shows
    it modulo the range of [unsigned long]), the global [head], the heap
    of nodes, and the record of steps taken so far. *)
Record state := mkState {
  time : Z;
  head : option addr;
  heap : gmap addr ScheduledTask;
  trace : list event
}.

(** What the body of a callable may do as far as the scheduler can tell:
    call [execute], or take time.  Calling [update] from inside a callable
    (re-entrant polling) and writing to [head] or to the nodes directly
    are outside the library's contract and are not modelled. *)
Inductive cmd :=
| CExecute (t : task_ptr) (d : Z)   (* parallax::execute(t, d) *)
| CDelay (ms : N).                  (* the clock advances by ms *)

(** [class Task]: a [std::function<void(void)>], possibly empty.  A
    non-empty callable chooses its commands from the state it runs in,
    which includes the clock and the record of everything that happened
    before. *)
Record Task := mkTask {
  function : option (state → list cmd)
}.

(** How a call ends. *)
Inductive outcome :=
| Done (s : state)       (* returned normally *)
| BadFunctionCall        (* an empty std::function was called *)
| Undefined              (* a freed or unallocated node was dereferenced *)
| OutOfFuel.             (* the loop did not finish within the given number of iterations *)

(** [ScheduledTask **indirect]. *)
Inductive loc :=
| AtHead                 (* &head *)
| AtNext (a : addr).     (* &a->next *)

Definition log (e : event) (s : state) : state :=
  mkState (time s) (head s) (heap s) (trace s ++ [e]).

Definition set_head (p : option addr) (s : state) : state :=
  mkState (time s) p (heap s) (trace s).

Definition set_heap (h : gmap addr ScheduledTask) (s : state) : state :=
  mkState (time s) (head s) h (trace s).

Definition set_next (p : option addr) (c : ScheduledTask) : ScheduledTask :=
  mkScheduledTask (task c) (startTime c) (duration c) p.

(** The clock advances. *)
Definition delay (ms : N) (s : state) : state :=
  mkState (time s + Z.of_N ms) (head s) (heap s) (trace s).

(** The state at program start: [head = nullptr], nothing allocated. *)
Definition boot (t0 : Z) : state := mkState t0 None ∅ [].

(** A concrete allocator: some address not in use.  It hands out the
    address of a deleted node again when that is the one it picks. *)
Definition fresh_addr (s : state) : addr := fresh (dom (heap s)).

(** Some [Task] objects to run the scheduler on: task 0 does nothing to
    the scheduler; task 1 schedules task 2 with duration 0; task 3 takes
    2 ms and then schedules task 0 for 5 ms; every other task has an
    empty callable. *)
Definition sample_tasks (t : task_ptr) : Task :=
  match t with
  | 0%nat => mkTask (Some (λ _, []))
  | 1%nat => mkTask (Some (λ _, [CExecute 2 0]))
  | 3%nat => mkTask (Some (λ _, [CDelay 2; CExecute 0 5]))
  | _ => mkTask None
  end.

Section Scheduler.

(** Width of [unsigned long]. *)
Variable bits : N.

(** [operator new]: the address handed out for the next node.  Any
    allocator will do, as long as the address is not in use; addresses of
    deleted nodes may come back.  Allocation does not fail (running out of
    memory ends the program). *)
Variable alloc : state → addr.
Hypothesis alloc_fresh : ∀ s, heap s !! alloc s = None.

(** The caller's [Task] objects, by address.  They outlive the entries
    that point to them (the caller's obligation). *)
Variable tasks : task_ptr → Task.

(** [millis()]. *)
Definition millis (who : reader) (s : state) : Z * state :=
  let v := wrap bits (time s) in (v, log (EvMillis who v) s).

(** [void execute(Task &task, unsigned long duration)]. *)
Definition execute (t : task_ptr) (d : Z) (s : state) : state :=
  let newTask := alloc s in
  let s := log (EvNew newTask) s in
  let '(now, s) := millis ByExecute s in
  let node := mkScheduledTask t now d None in
  match head s with
  | None =>
      set_head (Some newTask) (set_heap (<[newTask := node]> (heap s)) s)
  | Some h =>
      set_head (Some newTask)
        (set_heap (<[newTask := set_next (Some h) node]> (heap s)) s)
  end.

(** A straight-line sequence of [execute] calls and delays; the argument
    of [execute] is converted to [unsigned long] at the call. *)
Definition run_cmd (c : cmd) (s : state) : state :=
  match c with
  | CExecute t d => execute t (wrap bits d) s
  | CDelay ms => delay ms s
  end.

Definition run_cmds (cs : list cmd) (s : state) : state :=
  fold_left (λ s c, run_cmd c s) cs s.

(** [std::function::operator()]: calling an empty one is an error. *)
Definition call_function (f : option (state → list cmd)) (s : state) : outcome :=
  match f with
  | None => BadFunctionCall
  | Some body => Done (run_cmds (body s) s)
  end.

(** [void Task::operator()()]. *)
Definition call_task (t : Task) (s : state) : outcome :=
  match function t with
  | Some _ => call_function (function t) s
  | None => Done s
  end.

(** [*indirect]. *)
Definition load (i : loc) (s : state) : option (option addr) :=
  match i with
  | AtHead => Some (head s)
  | AtNext a => next <$> heap s !! a
  end.

(** [*indirect = p]. *)
Definition store (i : loc) (p : option addr) (s : state) : option state :=
  match i with
  | AtHead => Some (set_head p s)
  | AtNext a =>
      c ← heap s !! a; Some (set_heap (<[a := set_next p c]> (heap s)) s)
  end.

(** [delete current]. *)
Definition free (a : addr) (s : state) : state :=
  log (EvDelete a) (set_heap (delete a (heap s)) s).

(** The [while] loop of [update], which runs as long as [indirect] points
    to a non-null pointer; at most [fuel] tests of its condition. *)
Fixpoint update_loop (fuel : nat) (currentTime : Z) (indirect : loc)
    (s : state) : outcome :=
  match fuel with
  | O => OutOfFuel
  | S fuel =>
      match load indirect s with
      | None => Undefined
      | Some None => Done s
      | Some (Some current) =>
          match heap s !! current with
          | None => Undefined
          | Some c =>
              let s := log (EvTest current currentTime) s in
              if sub_ul bits currentTime (startTime c) <? duration c then
                match call_task (tasks (task c)) (log (EvCall current (task c)) s) with
                | Done s => update_loop fuel currentTime (AtNext current) s
                | o => o
                end
              else
                match store indirect (next c) s with
                | None => Undefined
                | Some s => update_loop fuel currentTime indirect (free current s)
                end
          end
      end
  end.

(** [void update()]. *)
Definition update (fuel : nat) (s : state) : outcome :=
  let '(currentTime, s) := millis ByUpdate s in
  update_loop fuel currentTime AtHead s.


(** ** The collection as a list *)

(** What the scheduler knows of one admitted task: the node's address and
    its three data fields. *)
Record entry := mkEntry {
  e_addr : addr;
  e_task : task_ptr;
  e_start : Z;
  e_dur : Z
}.

Definition entry_of (a : addr) (c : ScheduledTask) : entry :=
  mkEntry a (task c) (startTime c) (duration c).

Definition addrs (l : list entry) : list addr := e_addr <$> l.

(** [chain h p l]: following [next] pointers from [p] in [h] reaches
    [nullptr], passing exactly the nodes of [l], in this order. *)
Inductive chain (h : gmap addr ScheduledTask) : option addr → list entry → Prop :=
| chain_nil : chain h None []
| chain_cons a c l :
    h !! a = Some c → chain h (next c) l → chain h (Some a) (entry_of a c :: l).

(** The same walk as a function, giving up after [fuel] nodes. *)
Fixpoint entries (fuel : nat) (h : gmap addr ScheduledTask) (p : option addr)
    : option (list entry) :=
  match p with
  | None => Some []
  | Some a =>
      match fuel with
      | O => None
      | S fuel =>
          c ← h !! a; l ← entries fuel h (next c); Some (entry_of a c :: l)
      end
  end.

(** [collection s l]: the list behind [head] is [l], and the heap holds no
    other node. *)
Definition collection (s : state) (l : list entry) : Prop :=
  chain (heap s) (head s) l ∧ ∀ a, is_Some (heap s !! a) → a ∈ addrs l.

#[global] Instance entry_eq_dec : EqDecision entry.
Proof. solve_decision. Defined.

(** [collection] as a test. *)
Definition is_collection (s : state) (l : list entry) : bool :=
  bool_decide (entries (length l) (heap s) (head s) = Some l) &&
  forallb (λ ac : addr * ScheduledTask, bool_decide (ac.1 ∈ addrs l))
    (map_to_list (heap s)).

(** The test of line 103 on an entry: elapsed time below the duration. *)
Definition live (now : Z) (e : entry) : bool :=
  sub_ul bits now (e_start e) <? e_dur e.

Definition expired (now : Z) (e : entry) : bool := negb (live now e).

(** The entries of [l] that pass, respectively fail, the test at [now]. *)
Definition live_entries (now : Z) (l : list entry) : list entry :=
  filter (λ e, Is_true (live now e)) l.

Definition expired_entries (now : Z) (l : list entry) : list entry :=
  filter (λ e, Is_true (expired now e)) l.

(** The node and task of an entry, as line 105 records them. *)
Definition call_of (e : entry) : addr * task_ptr := (e_addr e, e_task e).

(** Where [indirect] points once the nodes of [pre] are behind it. *)
Definition last_loc (pre : list entry) : loc :=
  match last pre with
  | None => AtHead
  | Some e => AtNext (e_addr e)
  end.

(** ** Reading the record of steps *)

Definition calls (evs : list event) : list (addr * task_ptr) :=
  omap (λ ev, match ev with EvCall a t => Some (a, t) | _ => None end) evs.

Definition deletes (evs : list event) : list addr :=
  omap (λ ev, match ev with EvDelete a => Some a | _ => None end) evs.

Definition tests (evs : list event) : list (addr * Z) :=
  omap (λ ev, match ev with EvTest a now => Some (a, now) | _ => None end) evs.

Definition allocs (evs : list event) : list addr :=
  omap (λ ev, match ev with EvNew a => Some a | _ => None end) evs.

Definition reads (who : reader) (evs : list event) : list Z :=
  omap (λ ev, match ev with
              | EvMillis ByUpdate v =>
                  match who with ByUpdate => Some v | ByExecute => None end
              | EvMillis ByExecute v =>
                  match who with ByExecute => Some v | ByUpdate => None end
              | _ => None
              end) evs.

(** Steps that neither test, invoke nor delete a node, and do not read the
    clock on behalf of [update]. *)
Definition quiet (evs : list event) : Prop :=
  calls evs = [] ∧ deletes evs = [] ∧ tests evs = [] ∧ reads ByUpdate evs = [].

(** How often the task of node [a] was invoked, and how often [a] was
    deleted. *)
Definition calls_on (a : addr) (evs : list event) : nat :=
  length (filter (λ c, c.1 = a) (calls evs)).

Definition deletes_on (a : addr) (evs : list event) : nat :=
  length (filter (λ b, b = a) (deletes evs)).

(** Node [a] was invoked once and kept; node [a] was deleted without
    being invoked. *)
Definition invoked_once (a : addr) (evs : list event) : Prop :=
  calls_on a evs = 1%nat ∧ deletes_on a evs = 0%nat.

Definition removed_uninvoked (a : addr) (evs : list event) : Prop :=
  calls_on a evs = 0%nat ∧ deletes_on a evs = 1%nat.

(** How often task [t] was invoked, through whichever node. *)
Definition calls_of (t : task_ptr) (evs : list event) : nat :=
  length (filter (λ c, c.2 = t) (calls evs)).

(** [update] returns from [s] with state [s'], having taken steps [evs]. *)
Definition ticks (fuel : nat) (s s' : state) (evs : list event) : Prop :=
  update fuel s = Done s' ∧ trace s' = trace s ++ evs.

(** What the host program does between program start and any later
    moment: it calls [execute], lets time pass, or calls [update] and
    gets control back. *)
Inductive host_step : state → state → Prop :=
| step_cmd c s : host_step s (run_cmd c s)
| step_update fuel s s' : update fuel s = Done s' → host_step s s'.

Inductive reachable : state → Prop :=
| reach_boot t0 : reachable (boot t0)
| reach_step s s' : reachable s → host_step s s' → reachable s'.

(** ** The rest of the interface, and more ways to read a run *)



(** The [execute] calls of a command sequence, with the duration as the
    callee receives it, and the time the sequence takes. *)
Definition scheduled (cs : list cmd) : list (task_ptr * Z) :=
  omap (λ c, match c with
             | CExecute t d => Some (t, wrap bits d)
             | CDelay _ => None
             end) cs.

Definition total_delay (cs : list cmd) : Z :=
  foldr (λ c acc, match c with
                  | CDelay ms => Z.of_N ms + acc
                  | CExecute _ _ => acc
                  end) 0 cs.



(** ** Lists in the heap *)

Lemma chain_head h p l : chain h p l → p = e_addr <$> hd_error l.
Proof. by destruct 1. Qed.

Lemma chain_nil_inv h p : chain h p [] → p = None.
Proof. by inversion 1. Qed.

Lemma chain_cons_inv h p e l :
  chain h p (e :: l) →
  ∃ c, p = Some (e_addr e) ∧ h !! e_addr e = Some c ∧
       e = entry_of (e_addr e) c ∧ chain h (next c) l.
Proof. inversion 1; subst. eauto. Qed.

(** Two walks from the same pointer see the same nodes. *)
Lemma chain_functional h p l1 l2 : chain h p l1 → chain h p l2 → l1 = l2.
Proof.
  intros H1. revert l2. induction H1 as [|a c l Ha _ IH]; intros l2 H2.
  - by inversion H2.
  - inversion H2 as [|a' c' l' Ha' Hl']; subst.
    rewrite Ha in Ha'. injection Ha' as <-. f_equal. by apply IH.
Qed.

(** A walk only depends on the nodes it passes. *)
Lemma chain_frame h h' p l :
  (∀ a, a ∈ addrs l → h' !! a = h !! a) → chain h p l → chain h' p l.
Proof.
  intros Hsame H. induction H as [|a c l Ha _ IH].
  - constructor.
  - constructor.
    + rewrite Hsame; [done | apply list_elem_of_here].
    + apply IH. intros b Hb. apply Hsame. by apply list_elem_of_further.
Qed.

Lemma chain_drop h p l1 e l2 :
  chain h p (l1 ++ e :: l2) → chain h (Some (e_addr e)) (e :: l2).
Proof.
  revert p. induction l1 as [|x l1 IH]; intros p H; simpl in H.
  - by destruct (chain_cons_inv _ _ _ _ H) as (c & -> & _).
  - destruct (chain_cons_inv _ _ _ _ H) as (c & _ & _ & _ & Hl). eauto.
Qed.

Lemma chain_lookup h p l e :
  chain h p l → e ∈ l →
  ∃ c, h !! e_addr e = Some c ∧ e = entry_of (e_addr e) c.
Proof.
  intros H [l1 [l2 ->]]%list_elem_of_split.
  apply chain_drop, chain_cons_inv in H as (c & _ & Hc & He & _). eauto.
Qed.

(** A walk that ends passes no node twice. *)
Lemma chain_NoDup h p l : chain h p l → NoDup (addrs l).
Proof.
  induction 1 as [|a c l Ha Hl IH]; [constructor|].
  simpl. constructor; [|done].
  intros (e & Hea & [l1 [l2 ->]]%list_elem_of_split)%list_elem_of_fmap.
  simpl in Hea. subst a.
  pose proof (chain_drop _ _ _ _ _ Hl) as Hd.
  assert (Hc : chain h (Some (e_addr e)) (entry_of (e_addr e) c :: l1 ++ e :: l2))
    by (by constructor).
  pose proof (chain_functional _ _ _ _ Hd Hc) as Heq.
  apply (f_equal length) in Heq. simpl in Heq.
  rewrite length_app in Heq. simpl in Heq. lia.
Qed.

Lemma entries_chain fuel h p l : entries fuel h p = Some l → chain h p l.
Proof.
  revert p l. induction fuel as [|fuel IH]; intros [a|] l H; simpl in H;
    try (injection H as <-; constructor); try done.
  destruct (h !! a) as [c|] eqn:Ha; [|done]. simpl in H.
  destruct (entries fuel h (next c)) as [l'|] eqn:Hl; [|done]. simpl in H.
  injection H as <-. constructor; [done | by apply IH].
Qed.

Lemma chain_entries h p l : chain h p l → entries (length l) h p = Some l.
Proof.
  induction 1 as [|a c l Ha _ IH]; [done|].
  simpl. rewrite Ha. simpl. by rewrite IH.
Qed.

Lemma chain_cons' h a c e l :
  h !! a = Some c → e = entry_of a c → chain h (next c) l →
  chain h (Some a) (e :: l).
Proof. intros ? -> ?. by constructor. Qed.

(** Unlinking the node after [x]: [x->next] is redirected past it. *)
Lemma chain_relink h p pre x e rest cx :
  chain h p (pre ++ x :: e :: rest) →
  h !! e_addr x = Some cx →
  chain (<[e_addr x := set_next (e_addr <$> hd_error rest) cx]> h) p
        (pre ++ x :: rest).
Proof.
  intros H Hx. pose proof (chain_NoDup _ _ _ H) as Hnd. revert p H Hnd.
  induction pre as [|y pre IH]; intros p H Hnd; simpl in *.
  - apply chain_cons_inv in H as (c & -> & Hc & He & Hl).
    rewrite Hx in Hc. injection Hc as <-.
    apply chain_cons_inv in Hl as (ce & _ & _ & _ & Hrest).
    apply chain_cons' with (c := set_next (e_addr <$> hd_error rest) cx).
    + apply lookup_insert_eq.
    + by rewrite He at 1.
    + simpl. rewrite <- (chain_head _ _ _ Hrest).
      apply (chain_frame h); [|done].
      intros a Ha. apply lookup_insert_ne. intros <-.
      apply NoDup_cons in Hnd as [Hnot _]. apply Hnot. by apply list_elem_of_further.
  - apply chain_cons_inv in H as (c & -> & Hc & He & Hl).
    apply NoDup_cons in Hnd as [Hnot Hnd].
    apply chain_cons' with (c := c); [|done|by apply IH].
    rewrite lookup_insert_ne; [done|]. intros Heq. apply Hnot.
    rewrite <- Heq. unfold addrs. rewrite fmap_app. apply elem_of_app.
    right. simpl. apply list_elem_of_here.
Qed.

Lemma last_loc_snoc pre e : last_loc (pre ++ [e]) = AtNext (e_addr e).
Proof. unfold last_loc. by rewrite last_snoc. Qed.

(** Reading through [indirect] gives the first node not yet passed. *)
Lemma load_last_loc s pre rest :
  chain (heap s) (head s) (pre ++ rest) →
  load (last_loc pre) s = Some (e_addr <$> hd_error rest).
Proof.
  intros H. destruct pre as [|y pre _] using rev_ind.
  - simpl in *. f_equal. by apply chain_head in H.
  - rewrite last_loc_snoc. rewrite <- app_assoc in H. simpl in *.
    apply chain_drop, chain_cons_inv in H as (c & _ & Hc & _ & Hl).
    rewrite Hc. simpl. f_equal. by apply chain_head in Hl.
Qed.

(** Writing through [indirect] unlinks the node in front of it. *)
Lemma store_unlink s pre e rest :
  chain (heap s) (head s) (pre ++ e :: rest) →
  ∃ s', store (last_loc pre) (e_addr <$> hd_error rest) s = Some s' ∧
        chain (heap s') (head s') (pre ++ rest) ∧
        time s' = time s ∧ trace s' = trace s ∧
        (∀ a, is_Some (heap s' !! a) → is_Some (heap s !! a)).
Proof.
  intros H. destruct pre as [|y pre _] using rev_ind.
  - simpl in *. eexists. split; [done|]. simpl. split_and!; try done.
    apply chain_cons_inv in H as (c & _ & _ & _ & Hl).
    by rewrite <- (chain_head _ _ _ Hl).
  - rewrite last_loc_snoc. rewrite <- !app_assoc in *. simpl in *.
    pose proof H as Hd.
    apply chain_drop, chain_cons_inv in Hd as (c & _ & Hc & _ & _).
    rewrite Hc. simpl. eexists. split; [done|]. simpl. split_and!; try done.
    + by eapply chain_relink.
    + intros a. destruct (decide (e_addr y = a)) as [<-|Hne].
      * by rewrite Hc.
      * by rewrite lookup_insert_ne.
Qed.

(** ** Steps of [execute] and of callables *)

Lemma calls_app evs1 evs2 : calls (evs1 ++ evs2) = calls evs1 ++ calls evs2.
Proof. apply omap_app. Qed.

Lemma deletes_app evs1 evs2 : deletes (evs1 ++ evs2) = deletes evs1 ++ deletes evs2.
Proof. apply omap_app. Qed.

Lemma tests_app evs1 evs2 : tests (evs1 ++ evs2) = tests evs1 ++ tests evs2.
Proof. apply omap_app. Qed.

Lemma allocs_app evs1 evs2 : allocs (evs1 ++ evs2) = allocs evs1 ++ allocs evs2.
Proof. apply omap_app. Qed.

Lemma reads_app who evs1 evs2 :
  reads who (evs1 ++ evs2) = reads who evs1 ++ reads who evs2.
Proof. apply omap_app. Qed.

Lemma quiet_nil : quiet [].
Proof. by repeat split. Qed.

Lemma quiet_app evs1 evs2 : quiet evs1 → quiet evs2 → quiet (evs1 ++ evs2).
Proof.
  intros (H1 & H2 & H3 & H4) (K1 & K2 & K3 & K4). unfold quiet.
  by rewrite calls_app, deletes_app, tests_app, reads_app,
    H1, H2, H3, H4, K1, K2, K3, K4.
Qed.

(** [execute] in one step: both branches of its [if] link the new node in
    front of the old [head]. *)
Lemma execute_eq t d s :
  execute t d s =
  mkState (time s) (Some (alloc s))
    (<[alloc s := mkScheduledTask t (wrap bits (time s)) d (head s)]> (heap s))
    (trace s ++ [EvNew (alloc s); EvMillis ByExecute (wrap bits (time s))]).
Proof.
  unfold execute, millis, log, set_head, set_heap, set_next. simpl.
  destruct (head s); simpl; by rewrite <- app_assoc.
Qed.

Lemma execute_collection t d s l :
  collection s l →
  collection (execute t d s) (mkEntry (alloc s) t (wrap bits (time s)) d :: l).
Proof.
  intros [Hc Hdom]. rewrite execute_eq. split; simpl.
  - eapply chain_cons'; [apply lookup_insert_eq | done |]. simpl.
    apply (chain_frame (heap s)); [|done].
    intros a Ha. apply lookup_insert_ne. intros Heq.
    apply list_elem_of_fmap in Ha as (e & Hae & He).
    destruct (chain_lookup _ _ _ _ Hc He) as (c & Hl & _).
    by rewrite <- Hae, <- Heq, alloc_fresh in Hl.
  - intros a. destruct (decide (alloc s = a)) as [<-|Hne].
    + intros _. apply list_elem_of_here.
    + rewrite lookup_insert_ne by done. intros H. apply list_elem_of_further. by apply Hdom.
Qed.

Lemma run_cmds_spec cs s l :
  collection s l →
  ∃ news evs,
    trace (run_cmds cs s) = trace s ++ evs ∧
    collection (run_cmds cs s) (news ++ l) ∧
    addrs news = reverse (allocs evs) ∧ quiet evs ∧
    time s ≤ time (run_cmds cs s).
Proof.
  revert s l. induction cs as [|c cs IH]; intros s l Hs.
  - exists [], []. simpl. rewrite app_nil_r. split_and!; done || apply quiet_nil.
  - assert (∃ news1 evs1,
      trace (run_cmd c s) = trace s ++ evs1 ∧
      collection (run_cmd c s) (news1 ++ l) ∧
      addrs news1 = reverse (allocs evs1) ∧ quiet evs1 ∧
      time s ≤ time (run_cmd c s)) as (news1 & evs1 & Ht1 & Hc1 & Ha1 & Hq1 & Htime1).
    { destruct c as [t d|ms].
      - change (run_cmd (CExecute t d) s) with (execute t (wrap bits d) s).
        exists [mkEntry (alloc s) t (wrap bits (time s)) (wrap bits d)],
          [EvNew (alloc s); EvMillis ByExecute (wrap bits (time s))].
        split_and!.
        + by rewrite execute_eq.
        + by apply execute_collection.
        + done.
        + by repeat split.
        + rewrite execute_eq. simpl. lia.
      - exists [], []. simpl. rewrite app_nil_r.
        split_and!; done || apply quiet_nil || lia. }
    destruct (IH _ _ Hc1) as (news2 & evs2 & Ht2 & Hc2 & Ha2 & Hq2 & Htime2).
    exists (news2 ++ news1), (evs1 ++ evs2). simpl. split_and!.
    + by rewrite Ht2, Ht1, app_assoc.
    + by rewrite <- app_assoc.
    + unfold addrs in *. by rewrite fmap_app, allocs_app, reverse_app, Ha1, Ha2.
    + by apply quiet_app.
    + lia.
Qed.

(** The guard of [Task::operator()] keeps the error of the empty
    [std::function] out of reach. *)
Lemma call_task_spec t s l :
  collection s l →
  ∃ s' news evs,
    call_task t s = Done s' ∧
    trace s' = trace s ++ evs ∧
    collection s' (news ++ l) ∧
    addrs news = reverse (allocs evs) ∧ quiet evs ∧
    time s ≤ time s'.
Proof.
  intros Hs. unfold call_task. destruct (function t) as [body|]; simpl.
  - destruct (run_cmds_spec (body s) s l Hs) as (news & evs & H).
    exists (run_cmds (body s) s), news, evs. by split.
  - exists s, [], []. rewrite app_nil_r. split_and!; done || apply quiet_nil.
Qed.

(** ** The loop of [update] *)

Lemma store_log i p ev s : store i p (log ev s) = log ev <$> store i p s.
Proof. destruct i as [|a]; simpl; [done|]. by destruct (heap s !! a). Qed.

Lemma live_entries_cons now e l :
  live_entries now (e :: l) =
  if live now e then e :: live_entries now l else live_entries now l.
Proof.
  unfold live_entries. rewrite filter_cons.
  destruct (live now e); by case_decide.
Qed.

Lemma expired_entries_cons now e l :
  expired_entries now (e :: l) =
  if live now e then expired_entries now l else e :: expired_entries now l.
Proof.
  unfold expired_entries, expired. rewrite filter_cons.
  destruct (live now e); by case_decide.
Qed.

(** One run of the loop from a point where [pre] is behind [indirect] and
    [rest] is ahead: it returns, the nodes of [rest] are tested in order
    against [ct], the live ones are invoked and stay, the others are
    deleted, and what callables admitted meanwhile sits in front. *)
Lemma update_loop_spec ct rest : ∀ pre s fuel,
  collection s (pre ++ rest) → (length rest < fuel)%nat →
  ∃ s' news evs,
    update_loop fuel ct (last_loc pre) s = Done s' ∧
    trace s' = trace s ++ evs ∧
    collection s' (news ++ pre ++ live_entries ct rest) ∧
    addrs news = reverse (allocs evs) ∧
    calls evs = call_of <$> live_entries ct rest ∧
    deletes evs = addrs (expired_entries ct rest) ∧
    tests evs = (λ e, (e_addr e, ct)) <$> rest ∧
    reads ByUpdate evs = [] ∧
    (live_entries ct rest = [] → allocs evs = []) ∧
    time s ≤ time s'.
Proof.
  induction rest as [|e rest IH]; intros pre s fuel Hs Hfuel;
    (destruct fuel as [|fuel]; [simpl in Hfuel; lia|]);
    destruct Hs as [Hc Hd]; simpl; rewrite (load_last_loc _ _ _ Hc); simpl.
  - exists s, [], []. rewrite !app_nil_r in *. by split_and!.
  - pose proof (chain_drop _ _ _ _ _ Hc) as Hdrop.
    apply chain_cons_inv in Hdrop as (c & _ & Hlook & He & Hrest).
    rewrite Hlook.
    assert (Htest : (sub_ul bits ct (startTime c) <? duration c) = live ct e)
      by (by rewrite He).
    assert (Htask : task c = e_task e) by (by rewrite He).
    rewrite Htest, live_entries_cons, expired_entries_cons.
    destruct (live ct e) eqn:Hlive.
    + set (s1 := log (EvCall (e_addr e) (task c)) (log (EvTest (e_addr e) ct) s)).
      assert (Hs1 : collection s1 (pre ++ e :: rest)) by done.
      destruct (call_task_spec (tasks (task c)) s1 _ Hs1)
        as (s2 & news & evs1 & Hcall & Ht & Hc2 & Ha & (Hq1 & Hq2 & Hq3 & Hq4) & Htime).
      rewrite Hcall.
      destruct (IH ((news ++ pre) ++ [e]) s2 fuel)
        as (s' & news' & evs' & Hloop & Ht' & Hc' & Ha' & Hcalls & Hdel & Htests & Hrd & _ & Htime').
      { by rewrite <- !app_assoc. }
      { simpl in Hfuel. lia. }
      rewrite last_loc_snoc in Hloop.
      exists s', (news' ++ news),
        ([EvTest (e_addr e) ct; EvCall (e_addr e) (task c)] ++ evs1 ++ evs').
      split_and!.
      * done.
      * rewrite Ht', Ht. subst s1. simpl. by rewrite <- !app_assoc.
      * by rewrite <- !app_assoc in *.
      * unfold addrs in *.
        rewrite fmap_app, !allocs_app, !reverse_app, Ha, Ha'. simpl.
        by rewrite app_nil_r.
      * rewrite !calls_app, Hq1, Hcalls. simpl. unfold call_of at 2. by rewrite Htask.
      * by rewrite !deletes_app, Hq2, Hdel.
      * by rewrite !tests_app, Hq3, Htests.
      * by rewrite !reads_app, Hq4, Hrd.
      * done.
      * subst s1. simpl in *. lia.
    + destruct (store_unlink _ _ _ _ Hc) as (s1 & Hstore & Hc1 & Htime1 & Htr1 & Hd1).
      rewrite <- (chain_head _ _ _ Hrest) in Hstore.
      rewrite store_log, Hstore. simpl.
      pose proof (chain_NoDup _ _ _ Hc) as Hnd.
      assert (Hnotin : e_addr e ∉ addrs (pre ++ rest)).
      { unfold addrs in *. rewrite fmap_app in *. simpl in Hnd.
        apply NoDup_app in Hnd as (_ & Hdisj & [Hne _]%NoDup_cons).
        intros [Hin|Hin]%elem_of_app; [|done].
        apply (Hdisj _ Hin). apply list_elem_of_here. }
      destruct (IH pre (free (e_addr e) (log (EvTest (e_addr e) ct) s1)) fuel)
        as (s' & news' & evs' & Hloop & Ht' & Hc' & Ha' & Hcalls & Hdel & Htests & Hrd & Hna & Htime').
      { split; simpl.
        - apply (chain_frame (heap s1)); [|done].
          intros a Ha. apply lookup_delete_ne. by intros <-.
        - intros a. destruct (decide (e_addr e = a)) as [<-|Hne].
          + rewrite lookup_delete_eq. by intros [? ?].
          + rewrite lookup_delete_ne by done. intros Hsome.
            apply Hd1, Hd in Hsome. unfold addrs in *. rewrite fmap_app in *.
            simpl in Hsome. apply elem_of_app.
            apply elem_of_app in Hsome as [?|[?|?]%elem_of_cons]; by eauto. }
      { simpl in Hfuel. lia. }
      exists s', news', ([EvTest (e_addr e) ct; EvDelete (e_addr e)] ++ evs').
      split_and!.
      * done.
      * rewrite Ht'. simpl. rewrite Htr1. by rewrite <- !app_assoc.
      * done.
      * by rewrite allocs_app.
      * by rewrite calls_app.
      * rewrite deletes_app, Hdel. done.
      * by rewrite tests_app, Htests.
      * by rewrite reads_app.
      * by rewrite allocs_app.
      * simpl in *. lia.
Qed.

(** ** One call of [update] *)

Lemma update_spec s l fuel :
  collection s l → (length l < fuel)%nat →
  ∃ s' news evs,
    ticks fuel s s' (EvMillis ByUpdate (wrap bits (time s)) :: evs) ∧
    collection s' (news ++ live_entries (wrap bits (time s)) l) ∧
    addrs news = reverse (allocs evs) ∧
    calls evs = call_of <$> live_entries (wrap bits (time s)) l ∧
    deletes evs = addrs (expired_entries (wrap bits (time s)) l) ∧
    tests evs = (λ e, (e_addr e, wrap bits (time s))) <$> l ∧
    reads ByUpdate evs = [] ∧
    (live_entries (wrap bits (time s)) l = [] → allocs evs = []) ∧
    time s ≤ time s'.
Proof.
  intros Hs Hfuel. unfold ticks, update, millis.
  destruct (update_loop_spec (wrap bits (time s)) l []
              (log (EvMillis ByUpdate (wrap bits (time s))) s) fuel)
    as (s' & news & evs & Hloop & Ht & H); [done..|].
  exists s', news, evs. split; [|done]. split; [done|].
  rewrite Ht. simpl. by rewrite <- app_assoc.
Qed.

(** Counting occurrences of an address. *)
Lemma count_absent (a : addr) (k : list addr) :
  a ∉ k → filter (λ b, b = a) k = [].
Proof.
  induction k as [|b k IH]; [done|].
  intros [Hne Hk]%not_elem_of_cons. rewrite filter_cons.
  case_decide; [congruence | by apply IH].
Qed.

Lemma count_present (a : addr) (k : list addr) :
  NoDup k → a ∈ k → length (filter (λ b, b = a) k) = 1%nat.
Proof.
  induction k as [|b k IH]; [by intros _ ?%elem_of_nil|].
  intros [Hb Hnd]%NoDup_cons Hin. rewrite filter_cons. case_decide as Heq.
  - subst b. by rewrite count_absent.
  - apply elem_of_cons in Hin as [->|Hin]; [done | by apply IH].
Qed.

Lemma count_call_of (a : addr) l :
  length (filter (λ c : addr * task_ptr, c.1 = a) (call_of <$> l)) =
  length (filter (λ b, b = a) (addrs l)).
Proof.
  unfold addrs. induction l as [|e l IH]; [done|].
  rewrite !fmap_cons, !filter_cons. simpl.
  case_decide; simpl; by rewrite IH.
Qed.

Lemma NoDup_addrs_filter (P : entry → Prop) `{!∀ e, Decision (P e)} l :
  NoDup (addrs l) → NoDup (addrs (filter P l)).
Proof.
  induction l as [|x l IH]; [done|]. simpl.
  intros [Hx Hnd]%NoDup_cons. rewrite filter_cons. case_decide; [|by apply IH].
  simpl. apply NoDup_cons. split; [|by apply IH].
  intros (e & Hxe & [_ He]%list_elem_of_filter)%list_elem_of_fmap.
  apply Hx. rewrite Hxe. by apply list_elem_of_fmap_2.
Qed.

Lemma live_entries_elem now l e :
  e ∈ live_entries now l ↔ live now e = true ∧ e ∈ l.
Proof.
  unfold live_entries. rewrite list_elem_of_filter.
  by rewrite Is_true_true.
Qed.

Lemma expired_entries_elem now l e :
  e ∈ expired_entries now l ↔ live now e = false ∧ e ∈ l.
Proof.
  unfold expired_entries, expired. rewrite list_elem_of_filter.
  by rewrite Is_true_true, negb_true_iff.
Qed.

(** Entries of one collection are told apart by their address. *)
Lemma addr_inj l e e' :
  NoDup (addrs l) → e ∈ l → e' ∈ l → e_addr e = e_addr e' → e = e'.
Proof.
  induction l as [|x l IH]; intros Hnd He He'; [by apply elem_of_nil in He|].
  simpl in Hnd. apply NoDup_cons in Hnd as [Hx Hnd].
  apply elem_of_cons in He as [->|He]; apply elem_of_cons in He' as [->|He'];
    intros Heq; [done| | |by apply IH]; exfalso; apply Hx.
  - rewrite Heq. by apply list_elem_of_fmap_2.
  - rewrite <- Heq. by apply list_elem_of_fmap_2.
Qed.

Lemma addr_in_live now l e :
  NoDup (addrs l) → e ∈ l →
  e_addr e ∈ addrs (live_entries now l) ↔ live now e = true.
Proof.
  intros Hnd He. split.
  - intros (e' & Haddr & [Hlive He']%live_entries_elem)%list_elem_of_fmap.
    by rewrite (addr_inj l e e').
  - intros Hlive. apply list_elem_of_fmap_2. by apply live_entries_elem.
Qed.

Lemma addr_in_expired now l e :
  NoDup (addrs l) → e ∈ l →
  e_addr e ∈ addrs (expired_entries now l) ↔ live now e = false.
Proof.
  intros Hnd He. split.
  - intros (e' & Haddr & [Hlive He']%expired_entries_elem)%list_elem_of_fmap.
    by rewrite (addr_inj l e e').
  - intros Hlive. apply list_elem_of_fmap_2. by apply expired_entries_elem.
Qed.

Lemma entry_counts now l e evs :
  NoDup (addrs l) → e ∈ l →
  calls evs = call_of <$> live_entries now l →
  deletes evs = addrs (expired_entries now l) →
  calls_on (e_addr e) evs = (if live now e then 1 else 0)%nat ∧
  deletes_on (e_addr e) evs = (if live now e then 0 else 1)%nat.
Proof.
  intros Hnd He Hcalls Hdel. unfold calls_on, deletes_on.
  rewrite Hcalls, Hdel, count_call_of.
  pose proof (addr_in_live now l e Hnd He) as Hl.
  pose proof (addr_in_expired now l e Hnd He) as Hx.
  pose proof (NoDup_addrs_filter (λ e, Is_true (live now e)) l Hnd) as Hndl.
  pose proof (NoDup_addrs_filter (λ e, Is_true (expired now e)) l Hnd) as Hndx.
  fold (live_entries now l) in Hndl. fold (expired_entries now l) in Hndx.
  destruct (live now e).
  - rewrite count_present; [|done|by apply Hl]. split; [done|].
    rewrite count_absent; [done|]. rewrite Hx. done.
  - rewrite (count_absent _ (addrs (live_entries now l))) by (by rewrite Hl).
    split; [done|]. rewrite count_present; [done..|by apply Hx].
Qed.

Lemma calls_on_app a evs1 evs2 :
  calls_on a (evs1 ++ evs2) = (calls_on a evs1 + calls_on a evs2)%nat.
Proof. unfold calls_on. by rewrite calls_app, filter_app, length_app. Qed.

Lemma calls_on_quiet a evs : quiet evs → calls_on a evs = 0%nat.
Proof. intros (H & _). unfold calls_on. by rewrite H. Qed.

Lemma sub_ul_nonneg a b : 0 ≤ sub_ul bits a b.
Proof.
  unfold sub_ul, wrap, ULONG_RANGE.
  apply Z.mod_pos_bound. apply Z.pow_pos_nonneg; lia.
Qed.

(** An entry of duration 0 fails the test at any time. *)
Lemma live_zero_duration now e : e_dur e = 0 → live now e = false.
Proof.
  intros H. unfold live. rewrite H. apply Z.ltb_ge, sub_ul_nonneg.
Qed.

Lemma collection_nil_inv s : collection s [] → head s = None ∧ heap s = ∅.
Proof.
  intros [Hc Hd]. split; [by apply chain_nil_inv in Hc|].
  apply map_empty. intros a. destruct (heap s !! a) eqn:Ha; [|done].
  exfalso. eapply elem_of_nil, Hd. by rewrite Ha.
Qed.

Lemma collection_functional s l1 l2 : collection s l1 → collection s l2 → l1 = l2.
Proof. intros [H1 _] [H2 _]. by eapply chain_functional. Qed.

(** Unsigned subtraction of two clock readings gives the time that
    passed between them, as long as that is less than the range. *)
Lemma sub_ul_true_elapsed T0 T1 :
  T0 ≤ T1 < T0 + ULONG_RANGE bits →
  sub_ul bits (wrap bits T1) (wrap bits T0) = T1 - T0.
Proof.
  intros H. unfold sub_ul, wrap.
  rewrite <- Zminus_mod. apply Z.mod_small. lia.
Qed.

Lemma calls_of_live t l :
  length (filter (λ c : addr * task_ptr, c.2 = t) (call_of <$> l)) =
  length (filter (λ e, e_task e = t) l).
Proof.
  induction l as [|e l IH]; [done|].
  rewrite fmap_cons, !filter_cons. simpl.
  case_decide; simpl; by rewrite IH.
Qed.

(** Scheduling one task several times in a row. *)
Lemma run_cmds_same_task t (ds : list Z) : ∀ s l,
  collection s l →
  ∃ news,
    collection (run_cmds (CExecute t <$> ds) s) (news ++ l) ∧
    length news = length ds ∧
    (∀ e, e ∈ news → e_task e = t) ∧
    e_dur <$> news = reverse (wrap bits <$> ds).
Proof.
  induction ds as [|d ds IH]; intros s l Hs.
  - exists []. split_and!; [done..| |done]. intros e He. by apply elem_of_nil in He.
  - rewrite !fmap_cons.
    change (run_cmds (CExecute t d :: (CExecute t <$> ds)) s)
      with (run_cmds (CExecute t <$> ds) (execute t (wrap bits d) s)).
    apply (execute_collection t (wrap bits d)) in Hs.
    destruct (IH _ _ Hs) as (news & Hc & Hlen & Htask & Hdur).
    exists (news ++ [mkEntry (alloc s) t (wrap bits (time s)) (wrap bits d)]).
    split_and!.
    + by rewrite <- app_assoc.
    + rewrite length_app. simpl. lia.
    + intros e [He|He]%elem_of_app; [by apply Htask|].
      by apply list_elem_of_singleton in He as ->.
    + by rewrite fmap_app, Hdur, reverse_cons.
Qed.

Lemma is_collection_sound s l : is_collection s l = true → collection s l.
Proof.
  unfold is_collection. intros [He Hall]%andb_prop. split.
  - apply entries_chain with (fuel := length l). by apply bool_decide_eq_true in He.
  - intros a [c Hc]. rewrite forallb_forall in Hall.
    apply elem_of_map_to_list, list_elem_of_In, Hall in Hc.
    by apply bool_decide_eq_true in Hc.
Qed.

(** More fuel does not change a result. *)
Lemma update_loop_mono ct fuel : ∀ fuel' i s s',
  (fuel ≤ fuel')%nat →
  update_loop fuel ct i s = Done s' → update_loop fuel' ct i s = Done s'.
Proof.
  induction fuel as [|fuel IH]; intros fuel' i s s' Hle H; [done|].
  destruct fuel' as [|fuel']; [lia|]. simpl in *.
  destruct (load i s) as [[current|]|]; [|done..].
  destruct (heap s !! current) as [c|]; [|done].
  destruct (sub_ul bits ct (startTime c) <? duration c).
  - destruct (call_task _ _); [|done..]. apply IH; [lia|done].
  - destruct (store _ _ _); [|done]. apply IH; [lia|done].
Qed.

(** Every state the host program can be in holds a well-formed list. *)
Lemma reachable_collection s : reachable s → ∃ l, collection s l.
Proof.
  induction 1 as [t0|s s' _ [l Hl] Hstep].
  - exists []. split; [constructor|]. intros a [c Hc]. simpl in Hc. by rewrite lookup_empty in Hc.
  - destruct Hstep as [[t d|ms] s|fuel s s' Hup].
    + eexists. by apply execute_collection.
    + by exists l.
    + destruct (update_spec s l (fuel `max` S (length l)) Hl)
        as (s'' & news & evs & [Hup' _] & Hs'' & _); [lia|].
      unfold update, millis in *.
      apply (update_loop_mono _ _ (fuel `max` S (length l))) in Hup; [|lia].
      rewrite Hup in Hup'. injection Hup' as ->. eauto.
Qed.

(** ** Properties of the scheduler *)

(** C2.  An entry that is in the collection when [update] is called and
    whose elapsed time at the call's snapshot is below its duration has
    its task invoked exactly once in that call, is not deleted and stays
    in the collection; otherwise it is deleted (once) in that call, is not
    invoked in it, and is not among the entries that stay. *)
Theorem update_invokes_live_removes_expired s l fuel e :
  collection s l → (length l < fuel)%nat → e ∈ l →
  ∃ s' news evs,
    ticks fuel s s' evs ∧
    collection s' (news ++ live_entries (wrap bits (time s)) l) ∧
    addrs news = reverse (allocs evs) ∧
    if sub_ul bits (wrap bits (time s)) (e_start e) <? e_dur e
    then calls_on (e_addr e) evs = 1%nat ∧ call_of e ∈ calls evs ∧
         deletes_on (e_addr e) evs = 0%nat ∧
         e ∈ live_entries (wrap bits (time s)) l
    else calls_on (e_addr e) evs = 0%nat ∧
         deletes_on (e_addr e) evs = 1%nat ∧
         e ∉ live_entries (wrap bits (time s)) l.
Proof.
  intros Hs Hfuel He.
  destruct (update_spec s l fuel Hs Hfuel)
    as (s' & news & evs & Hticks & Hs' & Hnews & Hcalls & Hdel & _).
  pose proof (chain_NoDup _ _ _ (proj1 Hs)) as Hnd.
  destruct (entry_counts _ l e evs Hnd He Hcalls Hdel) as [Hc Hd].
  exists s', news, (EvMillis ByUpdate (wrap bits (time s)) :: evs).
  split_and!; [done..|].
  change (sub_ul bits (wrap bits (time s)) (e_start e) <? e_dur e)
    with (live (wrap bits (time s)) e).
  change (calls_on (e_addr e) (EvMillis ByUpdate (wrap bits (time s)) :: evs))
    with (calls_on (e_addr e) evs).
  change (deletes_on (e_addr e) (EvMillis ByUpdate (wrap bits (time s)) :: evs))
    with (deletes_on (e_addr e) evs).
  change (calls (EvMillis ByUpdate (wrap bits (time s)) :: evs)) with (calls evs).
  destruct (live (wrap bits (time s)) e) eqn:Hlive.
  - assert (e ∈ live_entries (wrap bits (time s)) l) by (by apply live_entries_elem).
    split_and!; [done| |done..]. rewrite Hcalls. by apply list_elem_of_fmap_2.
  - split_and!; [done..|]. rewrite live_entries_elem. intros [? _]. congruence.
Qed.

(** C3.  A call of [update] reads the clock once, as its first step, and
    tests every entry of the collection, in order, against the value
    read then, whatever the clock does while the callables run. *)
Theorem update_single_clock_snapshot s l fuel :
  collection s l → (length l < fuel)%nat →
  ∃ s' evs,
    ticks fuel s s' (EvMillis ByUpdate (wrap bits (time s)) :: evs) ∧
    reads ByUpdate evs = [] ∧
    tests evs = (λ e, (e_addr e, wrap bits (time s))) <$> l ∧
    (∀ a now, (a, now) ∈ tests evs → now = wrap bits (time s)).
Proof.
  intros Hs Hfuel.
  destruct (update_spec s l fuel Hs Hfuel)
    as (s' & news & evs & Hticks & _ & _ & _ & _ & Htests & Hreads & _).
  exists s', evs. split_and!; [done..|].
  intros a now. rewrite Htests.
  intros (e & [= _ ->] & _)%list_elem_of_fmap. done.
Qed.

(** C4.  Whenever [update] is called, every entry of duration 0 in the
    collection is deleted by that call without its task being invoked
    through it.  In particular an entry admitted with duration 0 is
    deleted, uninvoked, by the first call of [update] after its admission,
    whatever is admitted and however much time passes in between; no step
    since the admission invokes it. *)
Theorem zero_duration_removed_uninvoked s l t cs :
  collection s l →
  (∀ e fuel, e ∈ l → e_dur e = 0 → (length l < fuel)%nat →
     ∃ s' evs,
       ticks fuel s s' evs ∧ removed_uninvoked (e_addr e) evs ∧
       (e_addr e ∉ addrs (live_entries (wrap bits (time s)) l))) ∧
  ∃ l2,
    collection (run_cmds cs (execute t 0 s)) l2 ∧
    ∀ fuel, (length l2 < fuel)%nat →
      ∃ s3 evs evs_all,
        ticks fuel (run_cmds cs (execute t 0 s)) s3 evs ∧
        calls_on (alloc s) evs = 0%nat ∧
        deletes_on (alloc s) evs = 1%nat ∧
        (alloc s ∉ addrs (live_entries
                     (wrap bits (time (run_cmds cs (execute t 0 s)))) l2)) ∧
        trace s3 = trace s ++ evs_all ∧
        calls_on (alloc s) evs_all = 0%nat.
Proof.
  intros Hs. split.
  { intros e fuel He Hdur Hfuel.
    destruct (update_spec s l fuel Hs Hfuel)
      as (s' & news & evs & Hticks & _ & _ & Hcalls & Hdel & _).
    pose proof (chain_NoDup _ _ _ (proj1 Hs)) as Hnd.
    destruct (entry_counts _ l e evs Hnd He Hcalls Hdel) as [Hc Hd].
    rewrite (live_zero_duration _ e Hdur) in Hc, Hd.
    exists s', (EvMillis ByUpdate (wrap bits (time s)) :: evs).
    split_and!; [done|by split|].
    rewrite addr_in_live by done. by rewrite live_zero_duration. }
  set (e0 := mkEntry (alloc s) t (wrap bits (time s)) 0).
  pose proof (execute_collection t 0 s l Hs) as Hs1. fold e0 in Hs1.
  destruct (run_cmds_spec cs _ _ Hs1) as (news & evs1 & Ht1 & Hs2 & _ & Hq1 & _).
  set (s2 := run_cmds cs (execute t 0 s)) in *.
  exists (news ++ e0 :: l). split; [done|]. intros fuel Hfuel.
  destruct (update_spec s2 _ fuel Hs2 Hfuel)
    as (s3 & news3 & evs & [Hup Ht3] & _ & _ & Hcalls & Hdel & _).
  pose proof (chain_NoDup _ _ _ (proj1 Hs2)) as Hnd.
  assert (He0 : e0 ∈ news ++ e0 :: l)
    by (apply elem_of_app; right; apply list_elem_of_here).
  destruct (entry_counts _ _ e0 evs Hnd He0 Hcalls Hdel) as [Hc Hd].
  rewrite (live_zero_duration _ e0) in Hc, Hd by done.
  exists s3, (EvMillis ByUpdate (wrap bits (time s2)) :: evs),
    ([EvNew (alloc s); EvMillis ByExecute (wrap bits (time s))] ++ evs1 ++
     EvMillis ByUpdate (wrap bits (time s2)) :: evs).
  split_and!; [done..| | |].
  - change (alloc s) with (e_addr e0). rewrite addr_in_live by done.
    by rewrite live_zero_duration.
  - rewrite Ht3, Ht1, execute_eq. simpl. by rewrite <- !app_assoc.
  - rewrite !calls_on_app, (calls_on_quiet _ evs1) by done.
    change (calls_on (alloc s) (EvMillis ByUpdate (wrap bits (time s2)) :: evs))
      with (calls_on (e_addr e0) evs).
    by rewrite Hc.
Qed.

(** C5 (as amended).  After a call of [update], the collection consists of
    the entries admitted by callables during the call, which were not
    tested, followed by the entries present at the start whose elapsed
    time at the call's snapshot is below their duration; every entry
    present at the start that fails the test is deleted.  When none
    passes, the call invokes nothing, leaves [head] null and the heap
    empty, and later calls invoke nothing either. *)
Theorem update_keeps_only_live_of_old s l fuel :
  collection s l → (length l < fuel)%nat →
  ∃ s' news evs,
    ticks fuel s s' evs ∧
    collection s' (news ++ live_entries (wrap bits (time s)) l) ∧
    addrs news = reverse (allocs evs) ∧
    (∀ e, e ∈ live_entries (wrap bits (time s)) l →
          e ∈ l ∧ sub_ul bits (wrap bits (time s)) (e_start e) < e_dur e) ∧
    (∀ e, e ∈ l → e_dur e ≤ sub_ul bits (wrap bits (time s)) (e_start e) →
          deletes_on (e_addr e) evs = 1%nat ∧
          (e ∉ live_entries (wrap bits (time s)) l)) ∧
    (live_entries (wrap bits (time s)) l = [] →
       calls evs = [] ∧ head s' = None ∧ heap s' = ∅ ∧
       ∀ ms fuel', (0 < fuel')%nat →
         ∃ s'' evs', ticks fuel' (delay ms s') s'' evs' ∧
                     calls evs' = [] ∧ head s'' = None ∧ heap s'' = ∅).
Proof.
  intros Hs Hfuel.
  destruct (update_spec s l fuel Hs Hfuel)
    as (s' & news & evs & Hticks & Hs' & Hnews & Hcalls & Hdel & _ & _ & Hna & _).
  pose proof (chain_NoDup _ _ _ (proj1 Hs)) as Hnd.
  exists s', news, (EvMillis ByUpdate (wrap bits (time s)) :: evs).
  split_and!; [done..| | |].
  - intros e [Hlive He]%live_entries_elem. split; [done|].
    by apply Z.ltb_lt.
  - intros e He Hexp.
    assert (Hlive : live (wrap bits (time s)) e = false) by (by apply Z.ltb_ge).
    destruct (entry_counts _ l e evs Hnd He Hcalls Hdel) as [_ Hd].
    rewrite Hlive in Hd. split; [done|].
    rewrite live_entries_elem. intros [? _]. congruence.
  - intros Hnone.
    change (calls (EvMillis ByUpdate (wrap bits (time s)) :: evs)) with (calls evs).
    rewrite Hcalls, Hnone. split; [done|].
    assert (news = []) as ->.
    { apply (f_equal length) in Hnews. unfold addrs in Hnews.
      rewrite Hna, length_fmap in Hnews by done. by destruct news. }
    rewrite Hnone in Hs'. simpl in Hs'.
    destruct (collection_nil_inv _ Hs') as [Hh Hp]. split_and!; [done..|].
    intros ms fuel' Hfuel'.
    destruct (update_spec (delay ms s') [] fuel' Hs')
      as (s'' & news' & evs' & Hticks' & Hs'' & Hnews' & Hcalls' & _ & _ & _ & Hna' & _);
      [simpl; lia|].
    assert (news' = []) as ->.
    { apply (f_equal length) in Hnews'. unfold addrs in Hnews'.
      rewrite Hna', length_fmap in Hnews' by done. by destruct news'. }
    destruct (collection_nil_inv _ Hs'') as [Hh' Hp'].
    by exists s'', (EvMillis ByUpdate (wrap bits (time (delay ms s'))) :: evs').
Qed.

(** C6.  [execute] allocates one node, stamps it with the clock reading
    of the call and the given duration, and links it in front of the
    collection; every node that was there is still there, unchanged, in
    the same order, and the collection is one entry longer. *)
Theorem execute_pushes_one_entry s l t d :
  collection s l →
  collection (execute t d s) (mkEntry (alloc s) t (wrap bits (time s)) d :: l) ∧
  head (execute t d s) = Some (alloc s) ∧
  trace (execute t d s) =
    trace s ++ [EvNew (alloc s); EvMillis ByExecute (wrap bits (time s))] ∧
  (∀ a c, heap s !! a = Some c → heap (execute t d s) !! a = Some c) ∧
  (∀ l', collection (execute t d s) l' → length l' = S (length l)).
Proof.
  intros Hs. pose proof (execute_collection t d s l Hs) as Hs'.
  split_and!; [done | by rewrite execute_eq.. | |].
  - intros a c Ha. rewrite execute_eq. simpl.
    rewrite lookup_insert_ne; [done|]. intros Heq.
    by rewrite <- Heq, alloc_fresh in Ha.
  - intros l' Hl'. by rewrite (collection_functional _ _ _ Hl' Hs').
Qed.

(** C7.  Whatever mix of entries a call of [update] removes, at the
    front, in the middle or at the end, or all of them, the entries that
    pass the test are left linked behind [head] in their old order (after
    anything callables admitted meanwhile; alone, if nothing was admitted),
    the walk over them returns,
    each was invoked once in this call, and the next call of [update]
    again invokes exactly those of them that pass its test. *)
Theorem removal_keeps_live_entries_linked s l fuel :
  collection s l → (length l < fuel)%nat →
  ∃ s' news evs,
    ticks fuel s s' evs ∧
    collection s' (news ++ live_entries (wrap bits (time s)) l) ∧
    addrs news = reverse (allocs evs) ∧
    entries (length (news ++ live_entries (wrap bits (time s)) l))
      (heap s') (head s') = Some (news ++ live_entries (wrap bits (time s)) l) ∧
    calls evs = call_of <$> live_entries (wrap bits (time s)) l ∧
    deletes evs = addrs (expired_entries (wrap bits (time s)) l) ∧
    (allocs evs = [] → collection s' (live_entries (wrap bits (time s)) l)) ∧
    ∀ ms fuel',
      (length (news ++ live_entries (wrap bits (time s)) l) < fuel')%nat →
      ∃ s'' evs',
        ticks fuel' (delay ms s') s'' evs' ∧
        calls evs' =
          call_of <$> live_entries (wrap bits (time s' + Z.of_N ms))
                        (news ++ live_entries (wrap bits (time s)) l).
Proof.
  intros Hs Hfuel.
  destruct (update_spec s l fuel Hs Hfuel)
    as (s' & news & evs & Hticks & Hs' & Hnews & Hcalls & Hdel & _).
  exists s', news, (EvMillis ByUpdate (wrap bits (time s)) :: evs).
  split_and!; [done | done | done | by apply chain_entries, Hs' | done | done | |].
  { change (allocs (EvMillis ByUpdate (wrap bits (time s)) :: evs)) with (allocs evs).
    intros Hnone. rewrite Hnone in Hnews. by destruct news. }
  intros ms fuel' Hfuel'.
  destruct (update_spec (delay ms s') _ fuel' Hs' Hfuel')
    as (s'' & news' & evs' & Hticks' & _ & _ & Hcalls' & _).
  by exists s'', (EvMillis ByUpdate (wrap bits (time (delay ms s'))) :: evs').
Qed.

(** C8.  Invoking a [Task] whose callable is empty returns normally and
    changes nothing; no [Task], empty or not, ever reaches the error of
    calling an empty [std::function], which the unguarded call would
    raise. *)
Theorem empty_task_is_noop :
  (∀ s, call_task (mkTask None) s = Done s) ∧
  (∀ t s, call_task t s ≠ BadFunctionCall) ∧
  (∀ s, call_function None s = BadFunctionCall).
Proof.
  split_and!; [done| |done].
  intros [[body|]] s; by unfold call_task.
Qed.

(** C9.  A node allocated by [execute] from inside a callable during a
    call of [update] is not invoked in that call; it is in front of the
    collection when the call returns, and the next call tests it. *)
Theorem admitted_during_update_waits s l fuel :
  collection s l → (length l < fuel)%nat →
  ∃ s' news evs,
    ticks fuel s s' evs ∧
    collection s' (news ++ live_entries (wrap bits (time s)) l) ∧
    addrs news = reverse (allocs evs) ∧
    (∀ a, a ∈ allocs evs → calls_on a evs = 0%nat) ∧
    ∀ ms fuel',
      (length (news ++ live_entries (wrap bits (time s)) l) < fuel')%nat →
      ∃ s'' evs',
        ticks fuel' (delay ms s') s'' evs' ∧
        ∀ a, a ∈ allocs evs →
             (a, wrap bits (time s' + Z.of_N ms)) ∈ tests evs'.
Proof.
  intros Hs Hfuel.
  destruct (update_spec s l fuel Hs Hfuel)
    as (s' & news & evs & Hticks & Hs' & Hnews & Hcalls & _).
  exists s', news, (EvMillis ByUpdate (wrap bits (time s)) :: evs).
  change (allocs (EvMillis ByUpdate (wrap bits (time s)) :: evs)) with (allocs evs).
  assert (Hin : ∀ a, a ∈ allocs evs → a ∈ addrs news).
  { intros a Ha. rewrite Hnews. by apply elem_of_reverse. }
  split_and!; [done..| |].
  - intros a Ha%Hin.
    change (calls_on a (EvMillis ByUpdate (wrap bits (time s)) :: evs))
      with (calls_on a evs).
    unfold calls_on. rewrite Hcalls, count_call_of, count_absent; [done|].
    pose proof (chain_NoDup _ _ _ (proj1 Hs')) as Hnd.
    unfold addrs in Hnd. rewrite fmap_app in Hnd.
    apply NoDup_app in Hnd as (_ & Hdisj & _). by apply Hdisj.
  - intros ms fuel' Hfuel'.
    destruct (update_spec (delay ms s') _ fuel' Hs' Hfuel')
      as (s'' & news' & evs' & Hticks' & _ & _ & _ & _ & Htests & _).
    exists s'', (EvMillis ByUpdate (wrap bits (time (delay ms s'))) :: evs').
    split; [done|]. intros a (e & -> & He)%Hin%list_elem_of_fmap.
    change (tests (EvMillis ByUpdate (wrap bits (time (delay ms s'))) :: evs'))
      with (tests evs').
    rewrite Htests.
    apply (list_elem_of_fmap_2 (λ e, (e_addr e, wrap bits (time (delay ms s'))))).
    apply elem_of_app. by left.
Qed.

(** C10.  Scheduling one task several times makes as many entries, each
    with its own node and duration; a call of [update] invokes the task
    once for every entry of it that passes the test, and removes the
    entries that fail it, each on its own start time and duration. *)
Theorem same_task_entries_are_independent s l t (ds : list Z) :
  collection s l →
  (∃ news,
     collection (run_cmds (CExecute t <$> ds) s) (news ++ l) ∧
     length news = length ds ∧
     (∀ e, e ∈ news → e_task e = t) ∧
     e_dur <$> news = reverse (wrap bits <$> ds) ∧
     NoDup (addrs news)) ∧
  ∀ fuel, (length l < fuel)%nat →
    ∃ s' evs,
      ticks fuel s s' evs ∧
      calls_of t evs =
        length (filter (λ e, e_task e = t) (live_entries (wrap bits (time s)) l)) ∧
      deletes evs = addrs (expired_entries (wrap bits (time s)) l) ∧
      ∀ e, e ∈ l →
        calls_on (e_addr e) evs =
          if sub_ul bits (wrap bits (time s)) (e_start e) <? e_dur e
          then 1%nat else 0%nat.
Proof.
  intros Hs. split.
  - destruct (run_cmds_same_task t ds s l Hs) as (news & Hc & Hlen & Htask & Hdur).
    exists news. split_and!; [done..|].
    pose proof (chain_NoDup _ _ _ (proj1 Hc)) as Hnd.
    unfold addrs in Hnd. rewrite fmap_app in Hnd.
    by apply NoDup_app in Hnd as (? & _).
  - intros fuel Hfuel.
    destruct (update_spec s l fuel Hs Hfuel)
      as (s' & news & evs & Hticks & _ & _ & Hcalls & Hdel & _).
    exists s', (EvMillis ByUpdate (wrap bits (time s)) :: evs).
    split_and!; [done| |done|].
    + unfold calls_of.
      change (calls (EvMillis ByUpdate (wrap bits (time s)) :: evs)) with (calls evs).
      by rewrite Hcalls, calls_of_live.
    + intros e He.
      pose proof (chain_NoDup _ _ _ (proj1 Hs)) as Hnd.
      by destruct (entry_counts _ l e evs Hnd He Hcalls Hdel) as [Hc _].
Qed.

(** C1 (as amended).  The test of [update] compares the unsigned
    difference of the snapshot and the entry's start time with the
    duration.  That difference is the time that really passed since the
    admission whenever less than the whole range of the counter passed,
    across a wraparound included; this is so at a check that comes at
    most [gap] after the admission or after a check the entry passed, when
    duration plus [gap] fits in the range.  So an entry with start time [W - 5]
    and duration 10 is invoked at clock readings [W - 1] and [3], and is
    removed without being invoked once 10 or more (and less than [W])
    have passed. *)
Theorem elapsed_is_unsigned_difference s l fuel e :
  collection s l → (length l < fuel)%nat → e ∈ l →
  ∃ s' evs,
    ticks fuel s s' evs ∧
    (if (wrap bits (time s) - e_start e) mod ULONG_RANGE bits <? e_dur e
     then invoked_once (e_addr e) evs
     else removed_uninvoked (e_addr e) evs) ∧
    (∀ T0, e_start e = wrap bits T0 →
           T0 ≤ time s < T0 + ULONG_RANGE bits →
           (wrap bits (time s) - e_start e) mod ULONG_RANGE bits = time s - T0) ∧
    (∀ T0 Tprev gap,
           e_start e = wrap bits T0 →
           T0 ≤ Tprev ≤ time s → Tprev - T0 < e_dur e ∨ Tprev = T0 →
           time s - Tprev ≤ gap → gap < ULONG_RANGE bits →
           e_dur e + gap ≤ ULONG_RANGE bits →
           (wrap bits (time s) - e_start e) mod ULONG_RANGE bits = time s - T0) ∧
    (10 < ULONG_RANGE bits →
     e_start e = ULONG_RANGE bits - 5 → e_dur e = 10 →
     (wrap bits (time s) = ULONG_RANGE bits - 1 → invoked_once (e_addr e) evs) ∧
     (wrap bits (time s) = 3 → invoked_once (e_addr e) evs) ∧
     (∀ k, 10 ≤ k < ULONG_RANGE bits →
           wrap bits (time s) = wrap bits (ULONG_RANGE bits - 5 + k) →
           removed_uninvoked (e_addr e) evs)).
Proof.
  intros Hs Hfuel He.
  destruct (update_spec s l fuel Hs Hfuel)
    as (s' & news & evs & Hticks & _ & _ & Hcalls & Hdel & _).
  pose proof (chain_NoDup _ _ _ (proj1 Hs)) as Hnd.
  destruct (entry_counts _ l e evs Hnd He Hcalls Hdel) as [Hc Hd].
  exists s', (EvMillis ByUpdate (wrap bits (time s)) :: evs).
  unfold invoked_once, removed_uninvoked.
  change (calls_on (e_addr e) (EvMillis ByUpdate (wrap bits (time s)) :: evs))
    with (calls_on (e_addr e) evs).
  change (deletes_on (e_addr e) (EvMillis ByUpdate (wrap bits (time s)) :: evs))
    with (deletes_on (e_addr e) evs).
  change ((wrap bits (time s) - e_start e) mod ULONG_RANGE bits <? e_dur e)
    with (live (wrap bits (time s)) e).
  rewrite Hc, Hd. clear Hc Hd.
  split_and!; [done|by destruct (live _ e)| | |].
  - intros T0 -> HT. by apply sub_ul_true_elapsed.
  - intros T0 Tprev gap -> HT Hprev Hgap HgapW Hdur.
    apply sub_ul_true_elapsed. lia.
  - intros HW Hstart Hdur. unfold live, sub_ul. rewrite Hstart, Hdur.
    split_and!.
    + intros Heq. rewrite Heq. unfold wrap.
      replace (ULONG_RANGE bits - 1 - (ULONG_RANGE bits - 5)) with 4 by lia.
      by rewrite Z.mod_small by lia.
    + intros Heq. rewrite Heq. unfold wrap.
      replace (3 - (ULONG_RANGE bits - 5)) with (8 + (-1) * ULONG_RANGE bits) by lia.
      by rewrite Z_mod_plus_full, Z.mod_small by lia.
    + intros k Hk Heq. rewrite Heq. unfold wrap.
      rewrite Zminus_mod_idemp_l.
      replace (ULONG_RANGE bits - 5 + k - (ULONG_RANGE bits - 5)) with k by lia.
      rewrite Z.mod_small by lia.
      by destruct (Z.ltb_spec k 10); [lia|].
Qed.

(** ** Further properties *)

Lemma total_delay_nonneg cs : 0 ≤ total_delay cs.
Proof. induction cs as [|[t d|ms] cs IH]; simpl; lia. Qed.

(** What a straight-line sequence of commands leaves behind. *)
Lemma run_cmds_admits cs : ∀ s l,
  collection s l →
  ∃ news evs,
    trace (run_cmds cs s) = trace s ++ evs ∧ quiet evs ∧
    collection (run_cmds cs s) (news ++ l) ∧
    (λ e, (e_task e, e_dur e)) <$> news = reverse (scheduled cs) ∧
    addrs news = reverse (allocs evs) ∧
    time (run_cmds cs s) = time s + total_delay cs ∧
    (∀ e, e ∈ news →
          ∃ T, time s ≤ T ≤ time s + total_delay cs ∧ e_start e = wrap bits T).
Proof.
  induction cs as [|[t d|ms] cs IH]; intros s l Hs.
  - exists [], []. simpl. rewrite app_nil_r.
    split_and!; [done|apply quiet_nil|done|done|done|lia|].
    intros e He. by apply elem_of_nil in He.
  - change (run_cmds (CExecute t d :: cs) s)
      with (run_cmds cs (execute t (wrap bits d) s)).
    pose proof (total_delay_nonneg cs) as Hnn.
    apply (execute_collection t (wrap bits d)) in Hs.
    destruct (IH _ _ Hs) as (news & evs & Ht & Hq & Hc & Hsch & Ha & Htime & Hst).
    assert (Htr : trace (execute t (wrap bits d) s) =
              trace s ++ [EvNew (alloc s); EvMillis ByExecute (wrap bits (time s))])
      by (by rewrite execute_eq).
    assert (Hti : time (execute t (wrap bits d) s) = time s)
      by (by rewrite execute_eq).
    rewrite Htr in Ht. rewrite Hti in Htime.
    exists (news ++ [mkEntry (alloc s) t (wrap bits (time s)) (wrap bits d)]),
      ([EvNew (alloc s); EvMillis ByExecute (wrap bits (time s))] ++ evs).
    split_and!.
    + by rewrite Ht, <- app_assoc.
    + apply quiet_app; [by repeat split|done].
    + by rewrite <- app_assoc.
    + rewrite fmap_app, Hsch. simpl. by rewrite reverse_cons.
    + unfold addrs in *. rewrite fmap_app, allocs_app, reverse_app, Ha. done.
    + done.
    + intros e [He|He]%elem_of_app.
      * destruct (Hst e He) as (T & HT & HeT). rewrite Hti in HT.
        simpl in *. by exists T.
      * apply list_elem_of_singleton in He as ->. exists (time s).
        simpl. split; [lia|done].
  - change (run_cmds (CDelay ms :: cs) s) with (run_cmds cs (delay ms s)).
    destruct (IH (delay ms s) l Hs)
      as (news & evs & Ht & Hq & Hc & Hsch & Ha & Htime & Hst).
    exists news, evs. simpl in *.
    split_and!; [done..|lia|].
    intros e He. destruct (Hst e He) as (T & HT & HeT). exists T. split; [lia|done].
Qed.

Lemma collection_dom s l :
  collection s l → dom (heap s) = list_to_set (addrs l).
Proof.
  intros [Hc Hd]. apply set_eq. intros a.
  rewrite elem_of_dom, elem_of_list_to_set. split; [apply Hd|].
  intros (e & -> & He)%list_elem_of_fmap.
  destruct (chain_lookup _ _ _ _ Hc He) as (c & Hl & _). by rewrite Hl.
Qed.

(** The list behind [head] has as many entries as the heap has nodes. *)
Lemma collection_size s l : collection s l → length l = size (heap s).
Proof.
  intros Hs. rewrite <- size_dom, (collection_dom _ _ Hs).
  rewrite size_list_to_set by apply (chain_NoDup _ _ _ (proj1 Hs)).
  unfold addrs. by rewrite length_fmap.
Qed.

Lemma live_expired_length now l :
  (length (live_entries now l) + length (expired_entries now l))%nat = length l.
Proof.
  induction l as [|e l IH]; [done|].
  rewrite live_entries_cons, expired_entries_cons.
  destruct (live now e); simpl; lia.
Qed.




(** X1.  In every state the host program can reach, the list behind
    [head] ends (it has no cycle), passes no node twice, and passes every
    node of the heap: walking it with as many steps as the heap has nodes
    returns all of them. *)
Theorem reachable_list_well_formed s :
  reachable s →
  ∃ l, collection s l ∧ NoDup (addrs l) ∧ length l = size (heap s) ∧
       entries (size (heap s)) (heap s) (head s) = Some l.
Proof.
  intros [l Hl]%reachable_collection. exists l.
  pose proof (collection_size _ _ Hl) as Hsize.
  split_and!; [done|by apply (chain_NoDup _ _ _ (proj1 Hl))|done|].
  rewrite <- Hsize. by apply chain_entries, Hl.
Qed.







Lemma scheduled_executes (specs : list (task_ptr * Z)) :
  scheduled ((λ td, CExecute td.1 td.2) <$> specs) =
  (λ td, (td.1, wrap bits td.2)) <$> specs.
Proof. induction specs as [|td specs IH]; [done|]. simpl. f_equal. exact IH. Qed.

Lemma total_delay_executes (specs : list (task_ptr * Z)) :
  total_delay ((λ td, CExecute td.1 td.2) <$> specs) = 0.
Proof. by induction specs. Qed.

Lemma sub_ul_same T : sub_ul bits (wrap bits T) (wrap bits T) = 0.
Proof.
  rewrite sub_ul_true_elapsed; [lia|].
  assert (0 < ULONG_RANGE bits) by (apply Z.pow_pos_nonneg; lia). lia.
Qed.

Lemma live_entries_all now l :
  (∀ e, e ∈ l → live now e = true) → live_entries now l = l.
Proof.
  induction l as [|e l IH]; intros H; [done|].
  rewrite live_entries_cons, H by apply list_elem_of_here.
  f_equal. apply IH. intros e' He'. apply H. by apply list_elem_of_further.
Qed.

Lemma live_entries_app now l1 l2 :
  live_entries now (l1 ++ l2) = live_entries now l1 ++ live_entries now l2.
Proof. apply filter_app. Qed.

(** X4.  Tasks are invoked newest first: after a run of [execute] calls
    with non-zero durations, a call of [update] at the same clock reading
    invokes the tasks just scheduled in the reverse of the order they
    were scheduled in, and then the older live ones. *)
Theorem newest_first_invocation s l (specs : list (task_ptr * Z)) fuel :
  collection s l →
  (∀ td, td ∈ specs → 0 < wrap bits td.2) →
  (length specs + length l < fuel)%nat →
  ∃ s' evs,
    ticks fuel (run_cmds ((λ td, CExecute td.1 td.2) <$> specs) s) s' evs ∧
    snd <$> calls evs =
      reverse (fst <$> specs) ++ (e_task <$> live_entries (wrap bits (time s)) l).
Proof.
  intros Hs Hpos Hfuel.
  set (cs := (λ td, CExecute td.1 td.2) <$> specs).
  destruct (run_cmds_admits cs s l Hs)
    as (news & evs0 & _ & _ & Hc & Hsch & _ & Htime & Hst).
  subst cs. rewrite scheduled_executes in Hsch.
  rewrite total_delay_executes, Z.add_0_r in Htime, Hst.
  set (s1 := run_cmds ((λ td, CExecute td.1 td.2) <$> specs) s) in *.
  assert (Hlen : length news = length specs).
  { apply (f_equal length) in Hsch.
    by rewrite length_reverse, !length_fmap in Hsch. }
  destruct (update_spec s1 _ fuel Hc)
    as (s' & news' & evs & Hticks & _ & _ & Hcalls & _).
  { rewrite length_app. lia. }
  exists s', (EvMillis ByUpdate (wrap bits (time s1)) :: evs). split; [done|].
  change (calls (EvMillis ByUpdate (wrap bits (time s1)) :: evs)) with (calls evs).
  rewrite Hcalls, Htime, live_entries_app, fmap_app, fmap_app.
  rewrite live_entries_all.
  - f_equal; [|by rewrite <- list_fmap_compose].
    rewrite <- list_fmap_compose.
    transitivity (fst <$> ((λ e, (e_task e, e_dur e)) <$> news));
      [by rewrite <- list_fmap_compose|].
    rewrite Hsch, fmap_reverse. f_equal. by rewrite <- list_fmap_compose.
  - intros e He. destruct (Hst e He) as (T & HT & HeT).
    assert (T = time s) as -> by lia.
    unfold live. rewrite HeT, sub_ul_same. apply Z.ltb_lt.
    assert (Hin : (e_task e, e_dur e) ∈ (λ e, (e_task e, e_dur e)) <$> news)
      by (by apply (list_elem_of_fmap_2 (λ e, (e_task e, e_dur e)))).
    rewrite Hsch, elem_of_reverse in Hin.
    apply list_elem_of_fmap in Hin as (td & [= _ ->] & Htd). by apply Hpos.
Qed.


(** X6.  [update] cannot tell two moments apart that lie a whole number
    of counter periods from each other: called any number of full periods
    later on the same collection it tests against the same value, invokes
    through the same nodes and deletes the same nodes. *)
Theorem update_is_periodic s l fuel (k : N) :
  collection s l → (length l < fuel)%nat →
  ∃ s1 evs1 s2 evs2,
    ticks fuel s s1 evs1 ∧
    ticks fuel (delay (k * Z.to_N (ULONG_RANGE bits)) s) s2 evs2 ∧
    tests evs2 = tests evs1 ∧ calls evs2 = calls evs1 ∧
    deletes evs2 = deletes evs1.
Proof.
  intros Hs Hfuel.
  destruct (update_spec s l fuel Hs Hfuel)
    as (s1 & news1 & evs1 & Hticks1 & _ & _ & Hcalls1 & Hdel1 & Htests1 & _).
  destruct (update_spec (delay (k * Z.to_N (ULONG_RANGE bits)) s) l fuel Hs Hfuel)
    as (s2 & news2 & evs2 & Hticks2 & _ & _ & Hcalls2 & Hdel2 & Htests2 & _).
  assert (Hw : wrap bits (time (delay (k * Z.to_N (ULONG_RANGE bits)) s)) =
               wrap bits (time s)).
  { simpl. unfold wrap.
    assert (0 < ULONG_RANGE bits) by (apply Z.pow_pos_nonneg; lia).
    rewrite N2Z.inj_mul, Z2N.id by lia. apply Z_mod_plus_full. }
  rewrite Hw in *.
  exists s1, (EvMillis ByUpdate (wrap bits (time s)) :: evs1),
    s2, (EvMillis ByUpdate (wrap bits (time s)) :: evs2).
  split_and!; [done..| | |].
  - change (tests evs2 = tests evs1). congruence.
  - change (calls evs2 = calls evs1). congruence.
  - change (deletes evs2 = deletes evs1). congruence.
Qed.

(** X7.  Schedule, then poll: an entry admitted with duration [d] and
    polled [ms] later, with [ms] below the range of the counter, is
    invoked through its node exactly once when [ms < d], and is deleted
    without being invoked otherwise. *)
Theorem schedule_then_poll s l t d ms fuel :
  collection s l → Z.of_N ms < ULONG_RANGE bits → (S (length l) < fuel)%nat →
  ∃ s' evs,
    ticks fuel (delay ms (execute t d s)) s' evs ∧
    if Z.of_N ms <? d
    then invoked_once (alloc s) evs ∧ (alloc s, t) ∈ calls evs
    else removed_uninvoked (alloc s) evs.
Proof.
  intros Hs Hms Hfuel.
  set (e0 := mkEntry (alloc s) t (wrap bits (time s)) d).
  assert (Hs1 : collection (delay ms (execute t d s)) (e0 :: l))
    by apply (execute_collection t d s l Hs).
  destruct (update_spec _ _ fuel Hs1 Hfuel)
    as (s' & news & evs & Hticks & _ & _ & Hcalls & Hdel & _).
  pose proof (chain_NoDup _ _ _ (proj1 Hs1)) as Hnd.
  destruct (entry_counts _ _ e0 evs Hnd (list_elem_of_here _ _) Hcalls Hdel)
    as [Hc Hd].
  assert (Hlive : live (wrap bits (time (delay ms (execute t d s)))) e0 =
                  (Z.of_N ms <? d)).
  { unfold live. simpl. rewrite execute_eq. simpl.
    rewrite sub_ul_true_elapsed by lia. f_equal. lia. }
  exists s', (EvMillis ByUpdate (wrap bits (time (delay ms (execute t d s)))) :: evs).
  split; [done|]. unfold invoked_once, removed_uninvoked.
  change (calls_on (alloc s) (EvMillis ByUpdate _ :: evs))
    with (calls_on (e_addr e0) evs).
  change (deletes_on (alloc s) (EvMillis ByUpdate _ :: evs))
    with (deletes_on (e_addr e0) evs).
  change (calls (EvMillis ByUpdate (wrap bits (time (delay ms (execute t d s)))) :: evs))
    with (calls evs).
  rewrite Hc, Hd, Hcalls, live_entries_cons, Hlive.
  destruct (Z.of_N ms <? d); [|done].
  split; [done|]. apply list_elem_of_here.
Qed.


(** X9.  A call of [update] deletes only nodes that were in the heap when
    it was called, none of them twice, and afterwards the heap holds as
    many nodes as before, less those deleted, plus those its callables
    allocated. *)
Theorem update_heap_accounting s l fuel :
  collection s l → (length l < fuel)%nat →
  ∃ s' evs,
    ticks fuel s s' evs ∧
    (size (heap s') + length (deletes evs) =
     size (heap s) + length (allocs evs))%nat ∧
    NoDup (deletes evs) ∧
    (∀ a, a ∈ deletes evs → is_Some (heap s !! a)).
Proof.
  intros Hs Hfuel.
  destruct (update_spec s l fuel Hs Hfuel)
    as (s' & news & evs & Hticks & Hs' & Hnews & _ & Hdel & _).
  exists s', (EvMillis ByUpdate (wrap bits (time s)) :: evs). split; [done|].
  change (deletes (EvMillis ByUpdate (wrap bits (time s)) :: evs)) with (deletes evs).
  change (allocs (EvMillis ByUpdate (wrap bits (time s)) :: evs)) with (allocs evs).
  pose proof (chain_NoDup _ _ _ (proj1 Hs)) as Hnd.
  split_and!.
  - rewrite <- (collection_size _ _ Hs), <- (collection_size _ _ Hs'), Hdel.
    apply (f_equal length) in Hnews.
    unfold addrs in *. rewrite length_reverse, length_fmap in Hnews.
    rewrite length_app, length_fmap, <- Hnews.
    pose proof (live_expired_length (wrap bits (time s)) l). lia.
  - rewrite Hdel.
    apply (NoDup_addrs_filter (λ e, Is_true (expired (wrap bits (time s)) e)) l Hnd).
  - intros a. rewrite Hdel.
    intros (e & -> & [_ He]%expired_entries_elem)%list_elem_of_fmap.
    destruct (chain_lookup _ _ _ _ (proj1 Hs) He) as (c & Hc & _). by rewrite Hc.
Qed.

(** The list fixes the nodes it passes, [next] pointers included. *)
Lemma chain_determines h h' p p' l :
  chain h p l → chain h' p' l → ∀ a, a ∈ addrs l → h !! a = h' !! a.
Proof.
  intros H. revert p'. induction H as [|a c l Ha Hl IH]; intros p' H' b Hb.
  - by apply elem_of_nil in Hb.
  - apply chain_cons_inv in H' as (c' & _ & Hc' & He & Hl'). simpl in *.
    apply elem_of_cons in Hb as [->|Hb]; [|by eapply IH].
    rewrite Ha, Hc'. f_equal.
    pose proof (chain_head _ _ _ Hl) as Hn.
    pose proof (chain_head _ _ _ Hl') as Hn'.
    destruct c, c'. unfold entry_of in He. simpl in *. congruence.
Qed.

Lemma collection_determines s s' l :
  collection s l → collection s' l → head s' = head s ∧ heap s' = heap s.
Proof.
  intros [Hc Hd] [Hc' Hd']. split.
  - by rewrite (chain_head _ _ _ Hc), (chain_head _ _ _ Hc').
  - apply map_eq. intros a.
    destruct (decide (a ∈ addrs l)) as [Hin|Hout].
    + symmetry. by eapply chain_determines.
    + destruct (heap s' !! a) eqn:H1; [exfalso; apply Hout, Hd'; by rewrite H1|].
      destruct (heap s !! a) eqn:H2; [exfalso; apply Hout, Hd; by rewrite H2|].
      done.
Qed.

(** X10.  A call of [update] in which no entry fails the test and no
    callable schedules anything writes nothing to the list: [head] and
    every node, [next] pointers included, are as they were. *)
Theorem quiet_poll_leaves_list_untouched s l fuel :
  collection s l → (length l < fuel)%nat →
  ∃ s' evs,
    ticks fuel s s' evs ∧
    (expired_entries (wrap bits (time s)) l = [] → allocs evs = [] →
     head s' = head s ∧ heap s' = heap s ∧ calls evs = call_of <$> l).
Proof.
  intros Hs Hfuel.
  destruct (update_spec s l fuel Hs Hfuel)
    as (s' & news & evs & Hticks & Hs' & Hnews & Hcalls & _).
  exists s', (EvMillis ByUpdate (wrap bits (time s)) :: evs). split; [done|].
  change (allocs (EvMillis ByUpdate (wrap bits (time s)) :: evs)) with (allocs evs).
  change (calls (EvMillis ByUpdate (wrap bits (time s)) :: evs)) with (calls evs).
  intros Hnone Hna. rewrite Hna in Hnews.
  assert (news = []) as -> by (by destruct news). simpl in Hs'.
  assert (Hall : live_entries (wrap bits (time s)) l = l).
  { apply live_entries_all. intros e He.
    destruct (live (wrap bits (time s)) e) eqn:Hl; [done|].
    assert (Hx : e ∈ expired_entries (wrap bits (time s)) l)
      by (by apply expired_entries_elem).
    rewrite Hnone in Hx. by apply elem_of_nil in Hx. }
  rewrite Hall in Hs', Hcalls.
  destruct (collection_determines _ _ _ Hs Hs') as [Hh Hp]. by split_and!.
Qed.

End Scheduler.

Lemma fresh_addr_unused s : heap s !! fresh_addr s = None.
Proof. unfold fresh_addr. apply not_elem_of_dom, is_fresh. Qed.

(** ** Sample runs *)

(** Five tasks admitted between 0 ms and 3 ms, looked at 8 ms after
    program start: the entries at addresses 5, 3 and 1 (front, middle,
    end) have run out, those at 4 and 2 have not. *)
Definition sample_state : state :=
  delay 5 (execute 32 fresh_addr 0 3
    (delay 1 (execute 32 fresh_addr 3 50
      (delay 1 (execute 32 fresh_addr 0 2
        (delay 1 (execute 32 fresh_addr 0 60
          (execute 32 fresh_addr 0 1 (boot 0))))))))).

Definition sample_entries : list entry :=
  [mkEntry 5 0 3 3; mkEntry 4 3 2 50; mkEntry 3 0 1 2; mkEntry 2 0 0 60;
   mkEntry 1 0 0 1].

Lemma sample_collection : collection sample_state sample_entries.
Proof. apply is_collection_sound. vm_compute. reflexivity. Qed.

Lemma boot_collection t0 : collection (boot t0) [].
Proof. by apply is_collection_sound. Qed.

(** One call of [update] on the sample: nodes 5, 3 and 1 are deleted,
    tasks 3 and 0 are invoked through nodes 4 and 2, and the entry that
    task 3 admits meanwhile (2 ms later, in the node just freed) ends up
    in front, neither tested nor invoked. *)
Example sample_update :
  ∃ s',
    update 32 fresh_addr sample_tasks 6 sample_state = Done s' ∧
    entries 3 (heap s') (head s') =
      Some [mkEntry 5 0 10 5; mkEntry 4 3 2 50; mkEntry 2 0 0 60] ∧
    drop (length (trace sample_state)) (trace s') =
      [EvMillis ByUpdate 8; EvTest 5 8; EvDelete 5; EvTest 4 8; EvCall 4 3;
       EvNew 5; EvMillis ByExecute 10; EvTest 3 8; EvDelete 3; EvTest 2 8;
       EvCall 2 0; EvTest 1 8; EvDelete 1].
Proof. eexists. split; [vm_compute; reflexivity|]. by vm_compute. Qed.

Lemma update_invokes_live_removes_expired_witness :
  collection sample_state sample_entries ∧
  (length sample_entries < 6)%nat ∧
  mkEntry 4 3 2 50 ∈ sample_entries ∧
  ∃ s' evs,
    ticks 32 fresh_addr sample_tasks 6 sample_state s' evs ∧
    calls_on 4 evs = 1%nat ∧ (4%positive, 3%nat) ∈ calls evs ∧
    deletes_on 4 evs = 0%nat.
Proof.
  assert (Hin : mkEntry 4 3 2 50 ∈ sample_entries)
    by (apply list_elem_of_further, list_elem_of_here).
  assert (Hlen : (length sample_entries < 6)%nat) by (simpl; lia).
  split_and!; [apply sample_collection | exact Hlen | exact Hin |].
  destruct (update_invokes_live_removes_expired 32 fresh_addr fresh_addr_unused
              sample_tasks sample_state sample_entries 6 (mkEntry 4 3 2 50)
              sample_collection Hlen Hin)
    as (s' & news & evs & Ht & _ & _ & Hif).
  match type of Hif with
  | if ?c then _ else _ => change c with true in Hif
  end.
  destruct Hif as (Hc & Hm & Hd & _).
  by exists s', evs.
Defined.

Lemma update_single_clock_snapshot_witness :
  collection sample_state sample_entries ∧
  (length sample_entries < 6)%nat ∧
  ∃ s' evs,
    ticks 32 fresh_addr sample_tasks 6 sample_state s'
      (EvMillis ByUpdate (wrap 32 (time sample_state)) :: evs) ∧
    reads ByUpdate evs = [] ∧
    tests evs = (λ e, (e_addr e, wrap 32 (time sample_state))) <$> sample_entries ∧
    (∀ a now, (a, now) ∈ tests evs → now = wrap 32 (time sample_state)).
Proof.
  assert (Hlen : (length sample_entries < 6)%nat) by (simpl; lia).
  split_and!; [apply sample_collection | exact Hlen |].
  exact (update_single_clock_snapshot 32 fresh_addr fresh_addr_unused
           sample_tasks sample_state sample_entries 6 sample_collection Hlen).
Defined.

Lemma zero_duration_removed_uninvoked_witness :
  collection (boot 0) [] ∧
  ∃ l2,
    collection
      (run_cmds 32 fresh_addr [CDelay 7; CExecute 0 100]
         (execute 32 fresh_addr 0 0 (boot 0))) l2 ∧
    ∀ fuel, (length l2 < fuel)%nat →
      ∃ s3 evs evs_all,
        ticks 32 fresh_addr sample_tasks fuel
          (run_cmds 32 fresh_addr [CDelay 7; CExecute 0 100]
             (execute 32 fresh_addr 0 0 (boot 0))) s3 evs ∧
        calls_on (fresh_addr (boot 0)) evs = 0%nat ∧
        deletes_on (fresh_addr (boot 0)) evs = 1%nat ∧
        (fresh_addr (boot 0) ∉
           addrs (live_entries 32
                    (wrap 32 (time (run_cmds 32 fresh_addr [CDelay 7; CExecute 0 100]
                                      (execute 32 fresh_addr 0 0 (boot 0))))) l2)) ∧
        trace s3 = trace (boot 0) ++ evs_all ∧
        calls_on (fresh_addr (boot 0)) evs_all = 0%nat.
Proof.
  split; [apply boot_collection|].
  exact (proj2 (zero_duration_removed_uninvoked 32 fresh_addr fresh_addr_unused
                  sample_tasks (boot 0) [] 0%nat [CDelay 7; CExecute 0 100]
                  (boot_collection 0))).
Defined.

Lemma update_keeps_only_live_of_old_witness :
  collection sample_state sample_entries ∧
  (length sample_entries < 6)%nat ∧
  ∃ s' news evs,
    ticks 32 fresh_addr sample_tasks 6 sample_state s' evs ∧
    collection s'
      (news ++ live_entries 32 (wrap 32 (time sample_state)) sample_entries) ∧
    addrs news = reverse (allocs evs).
Proof.
  assert (Hlen : (length sample_entries < 6)%nat) by (simpl; lia).
  split_and!; [apply sample_collection | exact Hlen |].
  destruct (update_keeps_only_live_of_old 32 fresh_addr fresh_addr_unused
              sample_tasks sample_state sample_entries 6 sample_collection Hlen)
    as (s' & news & evs & Ht & Hc & Hn & _).
  by exists s', news, evs.
Defined.

Lemma execute_pushes_one_entry_witness :
  collection sample_state sample_entries ∧
  collection (execute 32 fresh_addr 7 20 sample_state)
    (mkEntry (fresh_addr sample_state) 7 (wrap 32 (time sample_state)) 20
       :: sample_entries) ∧
  head (execute 32 fresh_addr 7 20 sample_state) = Some (fresh_addr sample_state).
Proof.
  split; [apply sample_collection|].
  destruct (execute_pushes_one_entry 32 fresh_addr fresh_addr_unused
              sample_state sample_entries 7%nat 20 sample_collection)
    as (Hc & Hh & _).
  by split.
Defined.

Lemma removal_keeps_live_entries_linked_witness :
  collection sample_state sample_entries ∧
  (length sample_entries < 6)%nat ∧
  ∃ s' news evs,
    ticks 32 fresh_addr sample_tasks 6 sample_state s' evs ∧
    collection s'
      (news ++ live_entries 32 (wrap 32 (time sample_state)) sample_entries) ∧
    calls evs =
      call_of <$> live_entries 32 (wrap 32 (time sample_state)) sample_entries ∧
    deletes evs =
      addrs (expired_entries 32 (wrap 32 (time sample_state)) sample_entries).
Proof.
  assert (Hlen : (length sample_entries < 6)%nat) by (simpl; lia).
  split_and!; [apply sample_collection | exact Hlen |].
  destruct (removal_keeps_live_entries_linked 32 fresh_addr fresh_addr_unused
              sample_tasks sample_state sample_entries 6 sample_collection Hlen)
    as (s' & news & evs & Ht & Hc & _ & _ & Hcalls & Hdel & _).
  by exists s', news, evs.
Defined.

Lemma admitted_during_update_waits_witness :
  collection sample_state sample_entries ∧
  (length sample_entries < 6)%nat ∧
  ∃ s' news evs,
    ticks 32 fresh_addr sample_tasks 6 sample_state s' evs ∧
    addrs news = reverse (allocs evs) ∧
    (∀ a, a ∈ allocs evs → calls_on a evs = 0%nat).
Proof.
  assert (Hlen : (length sample_entries < 6)%nat) by (simpl; lia).
  split_and!; [apply sample_collection | exact Hlen |].
  destruct (admitted_during_update_waits 32 fresh_addr fresh_addr_unused
              sample_tasks sample_state sample_entries 6 sample_collection Hlen)
    as (s' & news & evs & Ht & _ & Hn & Hc & _).
  by exists s', news, evs.
Defined.

Lemma same_task_entries_are_independent_witness :
  collection (boot 0) [] ∧
  ∃ news,
    collection (run_cmds 32 fresh_addr (CExecute 0 <$> [5; 0; 7]) (boot 0))
      (news ++ []) ∧
    length news = 3%nat ∧
    (∀ e, e ∈ news → e_task e = 0%nat) ∧
    e_dur <$> news = reverse (wrap 32 <$> [5; 0; 7]) ∧
    NoDup (addrs news).
Proof.
  split; [apply boot_collection|].
  exact (proj1 (same_task_entries_are_independent 32 fresh_addr fresh_addr_unused
                  sample_tasks (boot 0) [] 0%nat [5; 0; 7] (boot_collection 0))).
Defined.

(** The entry of the example: admitted 5 ms before the counter wraps,
    looked at 8 ms later, when the counter shows 3. *)
Definition wrapped_state : state :=
  delay 8 (execute 32 fresh_addr 0 10 (boot (2 ^ 32 - 5))).

Lemma wrapped_collection :
  collection wrapped_state [mkEntry 1 0 (2 ^ 32 - 5) 10].
Proof. apply is_collection_sound. vm_compute. reflexivity. Qed.

Lemma elapsed_is_unsigned_difference_witness :
  collection wrapped_state [mkEntry 1 0 (2 ^ 32 - 5) 10] ∧
  (length [mkEntry 1 0 (2 ^ 32 - 5) 10] < 2)%nat ∧
  mkEntry 1 0 (2 ^ 32 - 5) 10 ∈ [mkEntry 1 0 (2 ^ 32 - 5) 10] ∧
  wrap 32 (time wrapped_state) = 3 ∧
  ∃ s' evs,
    ticks 32 fresh_addr sample_tasks 2 wrapped_state s' evs ∧
    invoked_once 1 evs.
Proof.
  assert (Hin : mkEntry 1 0 (2 ^ 32 - 5) 10 ∈ [mkEntry 1 0 (2 ^ 32 - 5) 10])
    by apply list_elem_of_here.
  assert (Hlen : (length [mkEntry 1 0 (2 ^ 32 - 5) 10] < 2)%nat) by (simpl; lia).
  split_and!; [apply wrapped_collection | exact Hlen | exact Hin | reflexivity |].
  destruct (elapsed_is_unsigned_difference 32 fresh_addr fresh_addr_unused
              sample_tasks wrapped_state _ 2 _ wrapped_collection Hlen Hin)
    as (s' & evs & Ht & _ & _ & _ & Hex).
  exists s', evs. split; [exact Ht|].
  destruct (Hex eq_refl eq_refl eq_refl) as (_ & H3 & _).
  apply H3. reflexivity.
Defined.

(** C1, as first stated, fails: an entry admitted at 5 ms with duration
    1 ms (far below half the range) and first looked at one full turn of
    the counter later, after exactly one wraparound, is found to have
    elapsed time 0 and is invoked, although [2^32] ms have passed. *)
Lemma late_check_after_wraparound_counterexample :
  let s := delay (2 ^ 32) (execute 32 fresh_addr 0 1 (boot 5)) in
  ∃ s' evs,
    collection s [mkEntry 1 0 5 1] ∧
    ticks 32 fresh_addr sample_tasks 2 s s' evs ∧
    1 ≤ 2 ^ 31 ∧
    0 ≤ 5 < 2 ^ 32 ∧ 2 ^ 32 ≤ time s < 2 * 2 ^ 32 ∧
    time s - 5 = 2 ^ 32 ∧
    sub_ul 32 (wrap 32 (time s)) 5 = 0 ∧
    invoked_once 1 evs.
Proof.
  intros s.
  eexists _, [EvMillis ByUpdate 5; EvTest 1 5; EvCall 1 0].
  split; [by apply is_collection_sound|].
  split; [split; vm_compute; reflexivity|].
  vm_compute. by repeat split.
Qed.

(** C5, as first stated, fails: task 1 schedules task 2 with duration 0
    while [update] runs; when [update] returns the new entry is in the
    collection although its elapsed time, 0, is not below its duration. *)
Lemma admitted_entry_untested_counterexample :
  let s := execute 32 fresh_addr 1 10 (boot 0) in
  let e := mkEntry 2 2 0 0 in
  ∃ s' evs,
    collection s [mkEntry 1 1 0 10] ∧
    ticks 32 fresh_addr sample_tasks 2 s s' evs ∧
    collection s' [e; mkEntry 1 1 0 10] ∧
    ¬ (sub_ul 32 (wrap 32 (time s)) (e_start e) < e_dur e).
Proof.
  intros s e.
  eexists _, [EvMillis ByUpdate 0; EvTest 1 0; EvCall 1 1; EvNew 2;
              EvMillis ByExecute 0].
  split; [by apply is_collection_sound|].
  split; [split; vm_compute; reflexivity|].
  split; [by apply is_collection_sound|].
  vm_compute. discriminate.
Qed.

(** ** Sample runs for the further properties *)

Lemma reachable_execute bits alloc tasks t d s :
  0 ≤ d < ULONG_RANGE bits →
  reachable bits alloc tasks s → reachable bits alloc tasks (execute bits alloc t d s).
Proof.
  intros Hd Hr. eapply reach_step; [exact Hr|].
  replace (execute bits alloc t d s) with (run_cmd bits alloc (CExecute t d) s);
    [apply step_cmd|].
  simpl. unfold wrap. by rewrite Z.mod_small.
Qed.

Lemma reachable_delay bits alloc tasks ms s :
  reachable bits alloc tasks s → reachable bits alloc tasks (delay ms s).
Proof. intros Hr. eapply reach_step; [exact Hr|]. apply (step_cmd _ _ _ (CDelay ms)). Qed.

Lemma sample_reachable : reachable 32 fresh_addr sample_tasks sample_state.
Proof.
  unfold sample_state.
  repeat first
    [ apply reach_boot
    | apply reachable_delay
    | apply reachable_execute; [split; [discriminate|reflexivity]|] ].
Qed.

Lemma reachable_list_well_formed_witness :
  reachable 32 fresh_addr sample_tasks sample_state ∧
  ∃ l, collection sample_state l ∧ NoDup (addrs l) ∧
       length l = size (heap sample_state) ∧
       entries (size (heap sample_state)) (heap sample_state) (head sample_state)
         = Some l.
Proof.
  split; [exact sample_reachable|].
  exact (reachable_list_well_formed 32 fresh_addr fresh_addr_unused sample_tasks
           sample_state sample_reachable).
Defined.



Lemma newest_first_invocation_witness :
  collection (boot 0) [] ∧
  (∀ td : nat * Z, td ∈ [(0%nat, 5); (3%nat, 7); (1%nat, 2)] → 0 < wrap 32 td.2) ∧
  (length [(0%nat, 5); (3%nat, 7); (1%nat, 2)] + length (@nil entry) < 4)%nat ∧
  ∃ s' evs,
    ticks 32 fresh_addr sample_tasks 4
      (run_cmds 32 fresh_addr
         ((λ td, CExecute td.1 td.2) <$> [(0%nat, 5); (3%nat, 7); (1%nat, 2)])
         (boot 0)) s' evs ∧
    snd <$> calls evs =
      reverse (fst <$> [(0%nat, 5); (3%nat, 7); (1%nat, 2)]) ++
      (e_task <$> live_entries 32 (wrap 32 (time (boot 0))) []).
Proof.
  assert (Hpos : ∀ td : nat * Z,
            td ∈ [(0%nat, 5); (3%nat, 7); (1%nat, 2)] → 0 < wrap 32 td.2).
  { intros td Htd.
    repeat (apply elem_of_cons in Htd as [->|Htd]; [reflexivity|]).
    by apply elem_of_nil in Htd. }
  assert (Hlen : (length [(0%nat, 5); (3%nat, 7); (1%nat, 2)] +
                  length (@nil entry) < 4)%nat) by (simpl; lia).
  split_and!; [apply boot_collection | exact Hpos | exact Hlen |].
  exact (newest_first_invocation 32 fresh_addr fresh_addr_unused sample_tasks
           (boot 0) [] [(0%nat, 5); (3%nat, 7); (1%nat, 2)] 4
           (boot_collection 0) Hpos Hlen).
Defined.


Lemma update_is_periodic_witness :
  collection sample_state sample_entries ∧
  (length sample_entries < 6)%nat ∧
  ∃ s1 evs1 s2 evs2,
    ticks 32 fresh_addr sample_tasks 6 sample_state s1 evs1 ∧
    ticks 32 fresh_addr sample_tasks 6
      (delay (2 * Z.to_N (ULONG_RANGE 32)) sample_state) s2 evs2 ∧
    tests evs2 = tests evs1 ∧ calls evs2 = calls evs1 ∧
    deletes evs2 = deletes evs1.
Proof.
  assert (Hlen : (length sample_entries < 6)%nat) by (simpl; lia).
  split_and!; [apply sample_collection | exact Hlen |].
  exact (update_is_periodic 32 fresh_addr fresh_addr_unused sample_tasks
           sample_state sample_entries 6 2 sample_collection Hlen).
Defined.

Lemma schedule_then_poll_witness :
  collection (boot 0) [] ∧
  Z.of_N 4 < ULONG_RANGE 32 ∧
  (S (length (@nil entry)) < 2)%nat ∧
  ∃ s' evs,
    ticks 32 fresh_addr sample_tasks 2
      (delay 4 (execute 32 fresh_addr 0 10 (boot 0))) s' evs ∧
    if Z.of_N 4 <? 10
    then invoked_once (fresh_addr (boot 0)) evs ∧
         (fresh_addr (boot 0), 0%nat) ∈ calls evs
    else removed_uninvoked (fresh_addr (boot 0)) evs.
Proof.
  assert (Hms : Z.of_N 4 < ULONG_RANGE 32) by reflexivity.
  assert (Hlen : (S (length (@nil entry)) < 2)%nat) by (simpl; lia).
  split_and!; [apply boot_collection | exact Hms | exact Hlen |].
  exact (schedule_then_poll 32 fresh_addr fresh_addr_unused sample_tasks
           (boot 0) [] 0%nat 10 4 2 (boot_collection 0) Hms Hlen).
Defined.


Lemma update_heap_accounting_witness :
  collection sample_state sample_entries ∧
  (length sample_entries < 6)%nat ∧
  ∃ s' evs,
    ticks 32 fresh_addr sample_tasks 6 sample_state s' evs ∧
    (size (heap s') + length (deletes evs) =
     size (heap sample_state) + length (allocs evs))%nat ∧
    NoDup (deletes evs) ∧
    (∀ a, a ∈ deletes evs → is_Some (heap sample_state !! a)).
Proof.
  assert (Hlen : (length sample_entries < 6)%nat) by (simpl; lia).
  split_and!; [apply sample_collection | exact Hlen |].
  exact (update_heap_accounting 32 fresh_addr fresh_addr_unused sample_tasks
           sample_state sample_entries 6 sample_collection Hlen).
Defined.

(** Two live entries of task 0, polled 1 ms after the second admission. *)
Definition calm_state : state :=
  delay 1 (execute 32 fresh_addr 0 20 (execute 32 fresh_addr 0 10 (boot 0))).

Lemma calm_collection :
  collection calm_state [mkEntry 2 0 0 20; mkEntry 1 0 0 10].
Proof. apply is_collection_sound. vm_compute. reflexivity. Qed.

Lemma quiet_poll_leaves_list_untouched_witness :
  collection calm_state [mkEntry 2 0 0 20; mkEntry 1 0 0 10] ∧
  (length [mkEntry 2 0 0 20; mkEntry 1 0 0 10] < 3)%nat ∧
  expired_entries 32 (wrap 32 (time calm_state))
    [mkEntry 2 0 0 20; mkEntry 1 0 0 10] = [] ∧
  ∃ s' evs,
    ticks 32 fresh_addr sample_tasks 3 calm_state s' evs ∧
    (expired_entries 32 (wrap 32 (time calm_state))
       [mkEntry 2 0 0 20; mkEntry 1 0 0 10] = [] →
     allocs evs = [] →
     head s' = head calm_state ∧ heap s' = heap calm_state ∧
     calls evs = call_of <$> [mkEntry 2 0 0 20; mkEntry 1 0 0 10]).
Proof.
  assert (Hlen : (length [mkEntry 2 0 0 20; mkEntry 1 0 0 10] < 3)%nat)
    by (simpl; lia).
  split_and!; [apply calm_collection | exact Hlen | by vm_compute |].
  exact (quiet_poll_leaves_list_untouched 32 fresh_addr fresh_addr_unused
           sample_tasks calm_state _ 3 calm_collection Hlen).
Defined.
